(** * A shallow embedding of the oxen-libquic event loop, tickers, networks
    and the BT request/response stream, with the properties of its
    specification. *)

From Stdlib Require Import Ascii String ZArith Lia.
From stdpp Require Import base list gmap.

Local Open Scope char_scope.

(** ** Bytes *)

(** A [std::string_view] / [bstring_view] is modelled by the bytes it covers. *)
Abbreviation bytes := (list ascii).

Definition bytes_of (s : string) : bytes := list_ascii_of_string s.

Definition colon : ascii := ":".

(** * BTRequestStream: the incoming byte parser (btstream.cpp) *)
Module BTRequestStream.

(** [std::string_view::find_first_of(':')]: [None] plays [npos]. *)
Fixpoint find_colon (s : bytes) : option nat :=
  match s with
  | [] => None
  | c :: s' => if Ascii.eqb c colon then Some 0 else option_map S (find_colon s')
  end.

(** The value of a decimal digit character. *)
Definition digit_value (c : ascii) : option N :=
  let n := N_of_ascii c in
  if (48 <=? n)%N && (n <=? 57)%N then Some (n - 48)%N else None.

Definition is_digitb (c : ascii) : bool :=
  match digit_value c with Some _ => true | None => false end.

(** The leading run of decimal digits, as digit values. *)
Fixpoint digit_run (s : bytes) : list N :=
  match s with
  | [] => []
  | c :: s' => match digit_value c with Some d => d :: digit_run s' | None => [] end
  end.

Definition digits_value (ds : list N) : N :=
  fold_left (fun acc d => acc * 10 + d)%N ds 0%N.

Definition SIZE_MAX : N := (2 ^ 64 - 1)%N.

(** [std::from_chars(first, last, size_t&)]: parses the longest leading run of
    decimal digits; no digit gives [errc::invalid_argument], a value that does
    not fit a [size_t] gives [errc::result_out_of_range]. Both are [None]; the
    output value is written only on success. *)
Definition from_chars (s : bytes) : option N :=
  match digit_run s with
  | [] => None
  | ds => let v := digits_value ds in
          if (v <=? SIZE_MAX)%N then Some v else None
  end.

(** The parser part of a [BTRequestStream]: [current_len], [size_buf], [buf],
    and the application code the stream was closed with ([None] while open). *)
Record parser := mk_parser {
  current_len : N;
  size_buf : bytes;
  buf : bytes;
  closed_with : option N
}.

Definition set_current_len (st : parser) (v : N) : parser :=
  mk_parser v (size_buf st) (buf st) (closed_with st).
Definition set_size_buf (st : parser) (b : bytes) : parser :=
  mk_parser (current_len st) b (buf st) (closed_with st).
Definition set_buf (st : parser) (b : bytes) : parser :=
  mk_parser (current_len st) (size_buf st) b (closed_with st).

(** Modelled from the spec: [Stream::close(code)] and [is_closing()] (stream.cpp
    is not part of the sources): closing records the application error code,
    and a stream that has been closed is closing. *)
Definition close (st : parser) (code : N) : parser :=
  mk_parser (current_len st) (size_buf st) (buf st) (Some code).

Definition is_closing (st : parser) : bool :=
  match closed_with st with Some _ => true | None => false end.

(** Result of [parse_length]: a return value, or a thrown [invalid_argument]. *)
Inductive parse_result :=
| PLen (st : parser) (consumed : nat)
| PThrow (st : parser).

(** Result of [process_incoming]: the messages handed to [handle_input], in
    order, and whether the call returned or threw. *)
Inductive proc_result :=
| POk (st : parser) (msgs : list bytes)
| PErr (st : parser) (msgs : list bytes).

Section Parser.

(** Modelled from the spec: the configuration constants [MAX_REQ_LEN] and
    [MAX_REQ_LEN_ENCODED] and the protocol-error code [BPARSER_ERROR_EXCEPTION]
    are declared in btstream.hpp, which is not part of the sources; they are
    kept abstract. [MAX_REQ_LEN] is a [size_t] value. *)
Variable MAX_REQ_LEN : N.
Variable MAX_REQ_LEN_ENCODED : N.
Variable BPARSER_ERROR_EXCEPTION : N.

(** Modelled from the spec: the constructor [message{*this, std::move(buf)}]
    parses the assembled bytes with [oxenc::bt_list_consumer], which is not
    part of the sources. [message_ok body] is whether it returns; on [false]
    it throws out of [process_incoming]. *)
Variable message_ok : bytes -> bool.

(** [BTRequestStream::parse_length]. *)
Definition parse_length (st : parser) (req : bytes) : parse_result :=
  match find_colon req with
  | None =>
      if (MAX_REQ_LEN_ENCODED <=? N.of_nat (length req))%N then PThrow st
      else PLen st 0
  | Some pos =>
      match from_chars (take pos req) with
      | None => PThrow (close st BPARSER_ERROR_EXCEPTION)
      | Some v =>
          let st1 := set_current_len st v in
          if (v =? 0)%N || (MAX_REQ_LEN <? v)%N
          then PThrow (close st1 BPARSER_ERROR_EXCEPTION)
          else PLen st1 (S pos)
      end
  end.

(** The length-prefix part of one iteration of the [while] loop of
    [process_incoming]: [inl] continues with the body part, [inr] leaves
    the loop. *)
Definition pi_prefix (st : parser) (req : bytes) (acc : list bytes)
  : (parser * bytes) + proc_result :=
  if (current_len st =? 0)%N then
    match size_buf st with
    | _ :: _ =>
        let prev_len := length (size_buf st) in
        let st1 := set_size_buf st
                     (size_buf st ++ take (N.to_nat MAX_REQ_LEN_ENCODED) req) in
        match parse_length st1 (size_buf st1) with
        | PThrow st2 => inr (PErr st2 acc)
        | PLen st2 0 => inr (POk st2 acc)
        | PLen st2 consumed =>
            (* [consumed > prev_len]: [size_buf] holds no ':' *)
            inl (set_size_buf st2 [], drop (consumed - prev_len) req)
        end
    | [] =>
        match parse_length st req with
        | PThrow st2 => inr (PErr st2 acc)
        | PLen st2 0 => inr (POk (set_size_buf st2 (size_buf st2 ++ req)) acc)
        | PLen st2 consumed => inl (st2, drop consumed req)
        end
    end
  else inl (st, req).

(** The [while (not req.empty())] loop of [process_incoming]; each message
    handed to [handle_input] is appended to [acc]. After
    [message{*this, std::move(buf)}] the moved-from [buf] is empty; when the
    constructor throws, the exception leaves the loop with the messages
    handed on so far ([PErr]) and [current_len] still set. The loop
    runs on [fuel]: every iteration that goes round consumes at least one
    byte, so [S (length req)] iterations suffice. *)
Fixpoint pi_loop (fuel : nat) (st : parser) (req : bytes) (acc : list bytes)
  : proc_result :=
  match fuel with
  | O => POk st acc
  | S fuel' =>
      match req with
      | [] => POk st acc
      | _ :: _ =>
          match pi_prefix st req acc with
          | inr r => r
          | inl (st, req) =>
              if (current_len st <=? N.of_nat (length req + length (buf st)))%N
              then
                let '(st, req) :=
                  if (N.of_nat (length (buf st)) <? current_len st)%N then
                    let need := N.to_nat (current_len st) - length (buf st) in
                    (set_buf st (buf st ++ take need req), drop need req)
                  else (st, req) in
                let msg := buf st in
                if message_ok msg
                then pi_loop fuel' (set_current_len (set_buf st []) 0) req (acc ++ [msg])
                else PErr (set_buf st []) acc
              else POk (set_buf st (buf st ++ req)) acc
          end
      end
  end.

Definition process_incoming (st : parser) (req : bytes) : proc_result :=
  pi_loop (S (length req)) st req [].

(** [BTRequestStream::receive]: an exception out of [process_incoming] closes
    the stream with [BPARSER_ERROR_EXCEPTION]. *)
Definition receive (st : parser) (data : bytes) : parser * list bytes :=
  if is_closing st then (st, [])
  else match process_incoming st data with
       | POk st' msgs => (st', msgs)
       | PErr st' msgs => (close st' BPARSER_ERROR_EXCEPTION, msgs)
       end.

(** Feeding a sequence of chunks, collecting every delivered message. *)
Fixpoint feed (st : parser) (chunks : list bytes) : parser * list bytes :=
  match chunks with
  | [] => (st, [])
  | c :: cs => let '(st1, m1) := receive st c in
               let '(st2, m2) := feed st1 cs in (st2, m1 ++ m2)
  end.

(** Spec 4.4: a message on the wire is [<decimal-length> ":" <bencoded-list>].
    A frame is given by its length digits and its message bytes. *)
Definition frame (f : bytes * bytes) : bytes := f.1 ++ colon :: f.2.

Definition encode (fs : list (bytes * bytes)) : bytes := concat (map frame fs).

(** A well-formed frame: a non-empty run of decimal digits that, with its
    ':', fits the size-prefix cap [MAX_REQ_LEN_ENCODED], and whose value is the
    length of the message, which is non-empty and at most [MAX_REQ_LEN]. *)
Definition valid_frameb (f : bytes * bytes) : bool :=
  let '(ds, body) := f in
  (0 <? length ds)%nat && forallb is_digitb ds
  && (N.of_nat (length ds) <? MAX_REQ_LEN_ENCODED)%N
  && (digits_value (digit_run ds) =? N.of_nat (length body))%N
  && (0 <? length body)%nat
  && (N.of_nat (length body) <=? MAX_REQ_LEN)%N.

(** Invariants of the parser between two calls of [process_incoming]. *)
Definition all_digits (p : bytes) : Prop := Forall (fun c => is_digitb c = true) p.

Definition value (ds : bytes) : N := digits_value (digit_run ds).

Definition header_ok (ds : bytes) : Prop :=
  ds <> [] /\ all_digits ds /\ (N.of_nat (length ds) < MAX_REQ_LEN_ENCODED)%N /\
  (0 < value ds)%N /\ (value ds <= MAX_REQ_LEN)%N.

(** The bytes of a frame received so far. *)
Definition pending (p : bytes) : Prop :=
  (all_digits p /\ (p = [] \/ (N.of_nat (length p) < MAX_REQ_LEN_ENCODED)%N)) \/
  (exists ds b, p = ds ++ colon :: b /\ header_ok ds /\ (N.of_nat (length b) < value ds)%N).

(** The parser state after receiving the partial frame [p]. *)
Definition parser_inv (st : parser) (p : bytes) : Prop :=
  (current_len st = 0%N /\ buf st = [] /\ size_buf st = p /\ all_digits p /\
     (p = [] \/ (N.of_nat (length p) < MAX_REQ_LEN_ENCODED)%N)) \/
  (exists ds, p = ds ++ colon :: buf st /\ header_ok ds /\ current_len st = value ds /\
     size_buf st = [] /\ (N.of_nat (length (buf st)) < current_len st)%N).

(** A parser state between two calls of [process_incoming] in which a
    message being assembled has a valid length. *)
Definition parser_ok (st : parser) : Prop :=
  (current_len st = 0%N /\ buf st = []) \/
  ((0 < current_len st)%N /\ (current_len st <= MAX_REQ_LEN)%N /\
   (N.of_nat (length (buf st)) < current_len st)%N).

(** A message handed on: between 1 and [MAX_REQ_LEN] bytes long. *)
Definition msg_ok (m : bytes) : Prop := (0 < N.of_nat (length m) <= MAX_REQ_LEN)%N.

End Parser.

Definition init_parser : parser := mk_parser 0 [] [] None.

(** A test of the first byte of a bencoded list, ['l'], used as a sample
    [message_ok] in examples. *)
Definition starts_list (b : bytes) : bool :=
  match b with "l" :: _ => true | _ => false end.

End BTRequestStream.

(** * BTRequestStream: dispatch of parsed messages and request timeouts *)
Module BTRequestStream_requests.

(** An in-flight [sent_request] as the code uses it: its [req_id]; [cb]
    names its completion callback. *)
Record sent_request := mk_sent_request { req_id : Z; cb : nat }.

(** The parts of a parsed [message] that [handle_input] reads: [req_type],
    [req_id] and [endpoint_str()]. *)
Record message := mk_message { msg_req_type : string; msg_req_id : Z; msg_endpoint : string }.

(** [std::lower_bound(sent_reqs.begin(), sent_reqs.end(), rid, comp)] with
    [comp(sr, rid) = sr->req_id < rid]: on a range partitioned by [comp]
    (the deque is sorted by [req_id]) it returns the first element for which
    [comp] is false; written as the scan with that result. *)
Fixpoint lower_bound (l : list sent_request) (rid : Z) : nat :=
  match l with
  | [] => 0
  | sr :: l' => if (req_id sr <? rid)%Z then S (lower_bound l' rid) else 0
  end.

(** What [handle_input] does with a message. *)
Inductive handled :=
| Completed (sr : sent_request)   (** [itr->get()->cb(std::move(msg))] *)
| Dispatched (ep : string)        (** [func_map[ep](std::move(msg))] *)
| Ignored.

(** [BTRequestStream::handle_input]: [func_map] by its registered endpoints;
    returns what was invoked and the new [sent_reqs]. *)
Definition handle_input (sent_reqs : list sent_request) (func_map : list string)
    (msg : message) : handled * list sent_request :=
  let by_endpoint :=
    if existsb (String.eqb (msg_endpoint msg)) func_map
    then (Dispatched (msg_endpoint msg), sent_reqs) else (Ignored, sent_reqs) in
  if (String.eqb (msg_req_type msg) "R" || String.eqb (msg_req_type msg) "E")%bool then
    let i := lower_bound sent_reqs (msg_req_id msg) in
    match sent_reqs !! i with
    | Some sr => (Completed sr, delete i sent_reqs)
    | None => by_endpoint
    end
  else by_endpoint.

Section Timeouts.

(** Modelled from the spec: [sent_request::is_expired(now)] is declared in
    btstream.hpp, which is not part of the sources; it is kept abstract. *)
Variable is_expired : sent_request -> Z -> bool.

(** The [do { ... } while (not sent_reqs.empty())] loop of
    [BTRequestStream::check_timeouts] at time [now]: returns the remaining
    deque and the requests whose callback got a timed-out message, in order.
    [None] is [sent_reqs.front()] on an empty deque (undefined behaviour). *)
Fixpoint check_timeouts_loop (now : Z) (sent_reqs : list sent_request)
  : option (list sent_request * list sent_request) :=
  match sent_reqs with
  | [] => None
  | f :: rest =>
      if is_expired f now then
        match rest with
        | [] => Some ([], [f])
        | _ :: _ => option_map (fun r => (r.1, f :: r.2)) (check_timeouts_loop now rest)
        end
      else Some (sent_reqs, [])
  end.

(** [BTRequestStream::check_timeouts], with [now = get_time()]. *)
Definition check_timeouts (now : Z) (sent_reqs : list sent_request)
  : option (list sent_request * list sent_request) :=
  check_timeouts_loop now sent_reqs.

(** The number of leading expired requests. *)
Fixpoint expired_prefix (now : Z) (l : list sent_request) : nat :=
  match l with
  | [] => 0
  | f :: l' => if is_expired f now then S (expired_prefix now l') else 0
  end.

End Timeouts.

End BTRequestStream_requests.

(** * Ticker (loop.cpp) *)
Module TickerModel.

(** A [Ticker]: [_is_running], and whether its callback [f] is set. *)
Record Ticker := mk_Ticker { _is_running : bool; f_set : bool }.

(** A new [Ticker]: [std::atomic<bool> _is_running{false}]. *)
Definition new_Ticker (has_f : bool) : Ticker := mk_Ticker false has_f.

Definition is_running (t : Ticker) : bool := _is_running t.

(** [Ticker::start]; [add_ok] is whether [event_add] returned 0. *)
Definition start (add_ok : bool) (t : Ticker) : bool * Ticker :=
  if _is_running t then (false, t)
  else if negb add_ok then (false, t)
  else (true, mk_Ticker true (f_set t)).

(** [Ticker::stop]; [del_ok] is whether [event_del] returned 0. *)
Definition stop (del_ok : bool) (t : Ticker) : bool * Ticker :=
  if negb (_is_running t) then (false, t)
  else if negb del_ok then (false, t)
  else (true, mk_Ticker false (f_set t)).

(** A call of [start()] or [stop()], with the result of the timer operation. *)
Inductive ticker_call := Start (add_ok : bool) | Stop (del_ok : bool).

Definition call (c : ticker_call) (t : Ticker) : bool * Ticker :=
  match c with Start ok => start ok t | Stop ok => stop ok t end.

(** A sequence of calls: the values returned, and the final [Ticker]. *)
Fixpoint calls (cs : list ticker_call) (t : Ticker) : list bool * Ticker :=
  match cs with
  | [] => ([], t)
  | c :: cs' => let '(r, t1) := call c t in
                let '(rs, t2) := calls cs' t1 in (r :: rs, t2)
  end.

(** The last call that returned [true]: [Some true] for a start, [Some false]
    for a stop. *)
Fixpoint last_transition (cs : list ticker_call) (rs : list bool) : option bool :=
  match cs, rs with
  | c :: cs', r :: rs' =>
      match last_transition cs' rs' with
      | Some b => Some b
      | None => if r then Some (match c with Start _ => true | Stop _ => false end)
                else None
      end
  | _, _ => None
  end.

End TickerModel.

(** * The weak-owner overload of [Loop::call_every] (loop.hpp) *)
Module WeakTicker.

(** The state seen by a weak-bound Ticker: whether the owner can still be
    locked, whether the Ticker (and with it its libevent event) still exists,
    how many times the user callback [func] ran, and how many times the
    event fired. *)
Record wstate := mk_wstate {
  owner_alive : bool;
  ticker_alive : bool;
  func_runs : nat;
  fires : nat
}.

Inductive wevent := Fire | DropOwner.

(** [Fire] is a timer expiry running the lambda
    [if (auto ptr = owner.lock()) func(); else hndlr.reset();]. The lambda
    holds the only [shared_ptr] to the Ticker, so [hndlr.reset()] destroys it;
    [~Ticker] frees the event ([ev.reset()]), and libevent runs no callback of
    a freed event: once the Ticker is gone an expiry does nothing.
    [DropOwner] is the owner's last [shared_ptr] going away. *)
Definition step (e : wevent) (s : wstate) : wstate :=
  match e with
  | DropOwner => mk_wstate false (ticker_alive s) (func_runs s) (fires s)
  | Fire =>
      if ticker_alive s then
        if owner_alive s then mk_wstate true true (S (func_runs s)) (S (fires s))
        else mk_wstate false false (func_runs s) (S (fires s))
      else s
  end.

Definition run (es : list wevent) (s : wstate) : wstate :=
  fold_left (fun s e => step e s) es s.

(** Right after [call_every(interval, caller, f)] with a live caller. *)
Definition call_every_state : wstate := mk_wstate true true 0 0.

End WeakTicker.

(** * [Loop::call_later] (loop.hpp) *)
Module CallLater.

Section Clock.

(** Modelled from the spec: [get_time()] is not part of the sources. Its
    clock counts [period] ticks per microsecond; a [std::chrono::microseconds]
    delay is [delay * period] ticks, and [duration_cast<microseconds>]
    truncates toward zero. *)
Variable period : Z.

(** What [call_later] leaves behind. *)
Inductive scheduled :=
| Oneshot (delay_us : Z)   (** [add_oneshot_event(delay)] *)
| Job (target_time : Z)    (** [call_soon] of the rebasing job *)
| RunNow.                  (** [func()] *)

(** [Loop::call_later(delay, hook)] called at clock value [now]. *)
Definition call_later (in_event_loop : bool) (now delay : Z) : scheduled :=
  if in_event_loop then Oneshot delay else Job (now + delay * period).

(** The queued job, run by the loop thread at clock value [now]. *)
Definition run_job (target_time now : Z) : scheduled :=
  if (target_time <=? now)%Z then RunNow
  else Oneshot (Z.quot (target_time - now) period).

End Clock.

End CallLater.

(** * The per-caller ticker registry of a [Loop] (loop.cpp) *)
Module LoopTickers.
Import TickerModel.

(** [caller_id_t = uint16_t]. *)
Abbreviation caller_id_t := N.

Definition loop_id : caller_id_t := 0%N.

(** The Tickers alive, by the identity of their control block (never
    reused), and [tickers], the [std::weak_ptr] lists by caller-id. *)
Record Loop := mk_Loop {
  heap : gmap nat Ticker;
  tickers : gmap caller_id_t (list nat);
  next_ticker : nat
}.

Definition empty_Loop : Loop := mk_Loop ∅ ∅ 0.

Definition expired (L : Loop) (a : nat) : bool :=
  match heap L !! a with Some _ => false | None => true end.

(** [Loop::clear_old_tickers]. *)
Definition clear_old_tickers (L : Loop) : Loop :=
  mk_Loop (heap L) (List.filter (fun a => negb (expired L a)) <$> tickers L) (next_ticker L).

(** [Loop::make_handler(_id)]: [tickers[_id]] default-constructs an empty list. *)
Definition make_handler (_id : caller_id_t) (L : Loop) : nat * Loop :=
  let L := clear_old_tickers L in
  let a := next_ticker L in
  let l := default [] (tickers L !! _id) in
  (a, mk_Loop (<[a := new_Ticker false]> (heap L)) (<[_id := l ++ [a]]> (tickers L)) (S a)).

Definition update_ticker (a : nat) (g : Ticker -> Ticker) (L : Loop) : Loop :=
  match heap L !! a with
  | Some t => mk_Loop (<[a := g t]> (heap L)) (tickers L) (next_ticker L)
  | None => L
  end.

(** [tick->f = nullptr; tick->stop();] where [event_del] succeeds. *)
Definition halt (t : Ticker) : Ticker := (stop true (mk_Ticker (_is_running t) false)).2.

(** [Loop::stop_tickers(id)]: [t.lock()] succeeds on the Tickers alive. *)
Definition stop_tickers (id : caller_id_t) (L : Loop) : Loop :=
  match tickers L !! id with
  | Some l =>
      mk_Loop (fold_left (fun h a => match h !! a with
                                     | Some t => <[a := halt t]> h
                                     | None => h
                                     end) l (heap L))
              (tickers L) (next_ticker L)
  | None => L
  end.

(** What can happen to a Loop's registry. *)
Inductive loop_op :=
| CallEvery (id : caller_id_t) (start_immediately add_ok : bool)
    (** [_call_every]: [make_handler(id)], [init_event] sets [f], then
        [start()] if [start_immediately] *)
| Release (a : nat)                   (** the last [shared_ptr] to Ticker [a] goes *)
| UserStart (a : nat) (add_ok : bool)
| UserStop (a : nat) (del_ok : bool)
| StopTickers (id : caller_id_t).

Definition loop_step (L : Loop) (o : loop_op) : Loop :=
  match o with
  | CallEvery id si ok =>
      let '(a, L1) := make_handler id L in
      update_ticker a (fun t => let t := mk_Ticker (_is_running t) true in
                                if si then (start ok t).2 else t) L1
  | Release a => mk_Loop (delete a (heap L)) (tickers L) (next_ticker L)
  | UserStart a ok => update_ticker a (fun t => (start ok t).2) L
  | UserStop a ok => update_ticker a (fun t => (stop ok t).2) L
  | StopTickers id => stop_tickers id L
  end.

Definition run_loop (ops : list loop_op) : Loop := fold_left loop_step ops empty_Loop.

(** Ticker [a] is in the list registered under [id]. *)
Definition registered (L : Loop) (id : caller_id_t) (a : nat) : Prop :=
  exists l, tickers L !! id = Some l /\ In a l.

(** Every registered Ticker was allocated before [next_ticker], and no Ticker
    is registered under two caller-ids. *)
Definition registry_ok (L : Loop) : Prop :=
  (forall id l a, tickers L !! id = Some l -> In a l -> (a < next_ticker L)%nat) /\
  (forall id1 id2 l1 l2 a, tickers L !! id1 = Some l1 -> tickers L !! id2 = Some l2 ->
     In a l1 -> In a l2 -> id1 = id2).

(** Every Ticker alive was allocated before [next_ticker]. *)
Definition heap_ok (L : Loop) : Prop :=
  forall a, is_Some (heap L !! a) -> (a < next_ticker L)%nat.

End LoopTickers.

(** * Copying and moving a [message] (btstream.cpp) *)
Module MessageViews.

(** Addresses and [size_t] values are 64-bit: arithmetic on them wraps. *)
Definition wrap (z : Z) : Z := z mod 2 ^ 64.

(** A [std::string_view]: [data()] and [size()]. A default-constructed view
    is [{nullptr, 0}]. *)
Record string_view := mk_sv { sv_data : Z; sv_size : Z }.

Definition null_sv : string_view := mk_sv 0 0.

(** A [message]: the address and bytes of its [data] buffer, and its views. *)
Record message := mk_message {
  data_addr : Z;
  data : bytes;
  req_type : string_view;
  ep : string_view;
  req_body : string_view
}.

(** [get_sv_pos(source, view)]: [view.data() - source.data()] as a [size_t]. *)
Definition get_sv_pos (source_addr : Z) (view : string_view) : Z * Z :=
  (wrap (sv_data view - source_addr), sv_size view).

(** [fixup_view(new_source, new_view, off_len)]. *)
Definition fixup_view (new_source_addr : Z) (off_len : Z * Z) : string_view :=
  mk_sv (wrap (new_source_addr + off_len.1)) off_len.2.

(** [message::operator=] (copy or move) and the copy and move constructors
    that call it: [data = m.data] (or [std::move(m.data)]) leaves the bytes in
    the destination's buffer at [new_addr]. *)
Definition assign (new_addr : Z) (m : message) : message :=
  let type_pos := get_sv_pos (data_addr m) (req_type m) in
  let ep_pos := get_sv_pos (data_addr m) (ep m) in
  let body_pos := get_sv_pos (data_addr m) (req_body m) in
  mk_message new_addr (data m)
    (fixup_view new_addr type_pos) (fixup_view new_addr ep_pos) (fixup_view new_addr body_pos).

(** A view that refers into the message's own buffer. *)
Definition in_buffer (m : message) (v : string_view) : Prop :=
  (data_addr m <= sv_data v /\ 0 <= sv_size v /\
   sv_data v + sv_size v <= data_addr m + Z.of_nat (length (data m)))%Z.

(** The bytes a view that refers into the buffer covers. *)
Definition view_bytes (m : message) (v : string_view) : bytes :=
  take (Z.to_nat (sv_size v)) (drop (Z.to_nat (sv_data v - data_addr m)) (data m)).

(** A response as the [message] constructor leaves it: [req_type] and
    [req_body] are views into [data]; [ep] is assigned only for a command, so
    it keeps its default value. *)
Definition response (addr : Z) (d : bytes) (type_off type_len body_off body_len : Z)
  : message :=
  mk_message addr d (mk_sv (addr + type_off) type_len) null_sv
    (mk_sv (addr + body_off) body_len).

End MessageViews.

(** * Caller-ids of [Network]s (network.cpp) *)
Module NetworkIds.

(** [caller_id_t = uint16_t]; [Loop::loop_id = 0]. *)
Definition caller_id_wrap (z : Z) : Z := z mod 2 ^ 16.

Definition loop_id : Z := 0.

(** [net_id{++next_net_id}], in every constructor (the copy constructor and
    [create_linked_network] go through [Network(std::shared_ptr<Loop>)]):
    returns the new [next_net_id] and the [net_id]. *)
Definition new_net_id (next_net_id : Z) : Z * Z :=
  let n := caller_id_wrap (next_net_id + 1) in (n, n).

(** The ids of [k] constructions, from the counter value [c]. *)
Fixpoint net_ids (k : nat) (c : Z) : list Z :=
  match k with
  | O => []
  | S k' => let '(c', id) := new_net_id c in id :: net_ids k' c'
  end.

(** [caller_id_t Network::next_net_id = 0;] *)
Definition initial_next_net_id : Z := 0.

End NetworkIds.

(** * [loop_time_to_timeval] (loop.cpp) *)
Module Timeval.

Record timeval := mk_timeval { tv_sec : Z; tv_usec : Z }.

(** [loop_time_to_timeval(t)] for [t] microseconds: [t / 1s] and
    [(t % 1s) / 1us] are integer division and remainder on microsecond counts,
    which truncate toward zero. *)
Definition loop_time_to_timeval (t : Z) : timeval :=
  mk_timeval (Z.quot t 1000000) (Z.quot (Z.rem t 1000000) 1).

End Timeval.

(** * The job queue of a [Loop] (loop.cpp, loop.hpp) *)
Module JobQueue.

Section Jobs.

(** Jobs are named by numbers; [spawns j] are the jobs that running [j]
    hands to [call_soon], in order. *)
Variable spawns : nat -> list nat.

(** The [while (not swapped_queue.empty())] loop of
    [Loop::process_job_queue]: [job_queue] is the queue [call_soon] pushes
    to, [ran] the jobs run so far. *)
Fixpoint run_swapped (swapped_queue job_queue ran : list nat) : list nat * list nat :=
  match swapped_queue with
  | [] => (ran, job_queue)
  | job :: rest => run_swapped rest (job_queue ++ spawns job) (ran ++ [job])
  end.

(** [Loop::process_job_queue]: swaps [job_queue] with an empty queue, then
    runs the swapped jobs. Returns the jobs run and the new [job_queue]. *)
Definition process_job_queue (job_queue : list nat) : list nat * list nat :=
  run_swapped job_queue [] [].

End Jobs.

End JobQueue.

(** * Properties of the BT request stream parser *)
Module BTRequestStream_facts.
Import BTRequestStream.

Section ParserFacts.
Variable MAX_REQ_LEN : N.
Variable MAX_REQ_LEN_ENCODED : N.
Variable BPARSER_ERROR_EXCEPTION : N.
Variable message_ok : bytes -> bool.
Hypothesis MAX_REQ_LEN_size_t : (MAX_REQ_LEN <= SIZE_MAX)%N.

Local Abbreviation ENC := MAX_REQ_LEN_ENCODED.
Local Abbreviation parse_length := (parse_length MAX_REQ_LEN ENC BPARSER_ERROR_EXCEPTION).
Local Abbreviation pi_prefix := (pi_prefix MAX_REQ_LEN ENC BPARSER_ERROR_EXCEPTION).
Local Abbreviation pi_loop := (pi_loop MAX_REQ_LEN ENC BPARSER_ERROR_EXCEPTION message_ok).

Local Abbreviation header_ok := (header_ok MAX_REQ_LEN ENC).
Local Abbreviation pending := (pending MAX_REQ_LEN ENC).
Local Abbreviation parser_inv := (parser_inv MAX_REQ_LEN ENC).

Lemma colon_not_digit : is_digitb colon = false.
Proof. reflexivity. Qed.

Lemma find_colon_digits (ds x : bytes) :
  all_digits ds -> find_colon (ds ++ colon :: x) = Some (length ds).
Proof.
  induction 1 as [|c ds Hc _ IH]; [reflexivity|].
  simpl. rewrite IH. destruct (Ascii.eqb_spec c colon); [subst; discriminate|done].
Qed.

Lemma find_colon_all_digits (ds : bytes) : all_digits ds -> find_colon ds = None.
Proof.
  induction 1 as [|c ds Hc _ IH]; [reflexivity|].
  simpl. rewrite IH. destruct (Ascii.eqb_spec c colon); [subst; discriminate|done].
Qed.

Lemma digits_colon_eq (d1 d2 x y : bytes) :
  all_digits d1 -> all_digits d2 -> d1 ++ colon :: x = d2 ++ colon :: y ->
  d1 = d2 /\ x = y.
Proof.
  intros H1. revert d2. induction H1 as [|c d1 Hc _ IH]; intros d2 H2 E.
  - destruct H2 as [|c' d2 Hc' _]; cbn [app] in E.
    + injection E as E. by subst.
    + injection E as Ec _. subst c'. by rewrite colon_not_digit in Hc'.
  - destruct H2 as [|c' d2 Hc' H2]; cbn [app] in E.
    + injection E as Ec _. subst c. by rewrite colon_not_digit in Hc.
    + injection E as Ec E. subst c'. destruct (IH d2 H2 E) as [-> ->]. done.
Qed.

Lemma digits_prefix (p c ds y : bytes) :
  all_digits p -> all_digits ds -> p ++ c = ds ++ colon :: y ->
  exists ds2, ds = p ++ ds2 /\ c = ds2 ++ colon :: y.
Proof.
  intros Hp. revert ds. induction Hp as [|a p Ha _ IH]; intros ds Hds E.
  - by exists ds.
  - destruct Hds as [|a' ds Ha' Hds]; cbn [app] in E.
    + injection E as Ea _. subst a. by rewrite colon_not_digit in Ha.
    + injection E as Ea E. subst a'. destruct (IH ds Hds E) as (ds2 & -> & ->).
      by exists ds2.
Qed.

Lemma all_digits_app (p q : bytes) : all_digits (p ++ q) <-> all_digits p /\ all_digits q.
Proof. apply Forall_app. Qed.

Lemma from_chars_header (ds : bytes) :
  header_ok ds -> from_chars ds = Some (value ds).
Proof.
  intros (Hne & Hd & _ & _ & Hle). unfold from_chars, value in *.
  destruct ds as [|c ds']; [done|].
  inversion Hd as [|? ? Hc _]; subst. unfold is_digitb in Hc.
  simpl. destruct (digit_value c) as [d|] eqn:Ed; [|discriminate].
  cbv zeta. simpl in Hle. rewrite Ed in Hle.
  replace (digits_value (d :: digit_run ds') <=? SIZE_MAX)%N with true; [done|].
  symmetry. apply N.leb_le. lia.
Qed.


Lemma drop_colon (d y : bytes) : drop (S (length d)) (d ++ colon :: y) = y.
Proof. induction d as [|a d IH]; [done|exact IH]. Qed.

Lemma take_colon (d y : bytes) (n : nat) :
  length d < n -> take n (d ++ colon :: y) = d ++ colon :: take (n - S (length d)) y.
Proof.
  revert n. induction d as [|a d IH]; intros [|n] Hn; simpl in *; try lia.
  - by rewrite Nat.sub_0_r.
  - f_equal. apply IH. lia.
Qed.

Lemma header_bounds (ds : bytes) :
  header_ok ds -> (value ds =? 0)%N || (MAX_REQ_LEN <? value ds)%N = false.
Proof.
  intros (_ & _ & _ & H0 & Hle).
  apply orb_false_iff. split; [apply N.eqb_neq; lia | apply N.ltb_ge; lia].
Qed.

(** The length-prefix state: once the prefix of a frame with a valid header
    has arrived, [pi_prefix] parses it and continues with the message bytes. *)
Lemma prefix_header (st : parser) (p c ds y : bytes) (acc : list bytes) :
  current_len st = 0%N -> buf st = [] -> size_buf st = p -> all_digits p ->
  header_ok ds -> p ++ c = ds ++ colon :: y ->
  pi_prefix st c acc = inl (mk_parser (value ds) [] [] (closed_with st), y).
Proof.
  intros Hcur Hbuf Hsb Hp Hh E.
  destruct (digits_prefix p c ds y Hp (proj1 (proj2 Hh)) E) as (ds2 & -> & ->).
  destruct Hh as (Hne & Hd & Hlen & H0 & Hle).
  pose proof (proj2 (proj1 (all_digits_app _ _) Hd)) as Hd2.
  destruct st as [cur sb b cl]; simpl in *; subst.
  unfold BTRequestStream.pi_prefix. simpl.
  destruct p as [|a p'].
  - unfold BTRequestStream.parse_length.
    rewrite find_colon_digits by done. rewrite take_app_length.
    rewrite (from_chars_header ds2) by (split_and!; done).
    simpl. rewrite (header_bounds ds2) by (split_and!; done).
    unfold set_current_len. simpl. by rewrite drop_colon.
  - cbv zeta. simpl.
    rewrite take_colon by (rewrite length_app in Hlen; simpl in Hlen; lia).
    replace (a :: p' ++ ds2 ++ colon :: take (N.to_nat ENC - S (length ds2)) y)
      with ((a :: p' ++ ds2) ++ colon :: take (N.to_nat ENC - S (length ds2)) y)
      by (simpl; by rewrite <- app_assoc).
    unfold BTRequestStream.parse_length.
    rewrite find_colon_digits by done. rewrite take_app_length.
    rewrite (from_chars_header (a :: p' ++ ds2)) by (split_and!; done).
    rewrite (header_bounds (a :: p' ++ ds2)) by (split_and!; done).
    simpl length. rewrite length_app.
    replace (S (S (length p' + length ds2)) - S (length p')) with (S (length ds2)) by lia.
    unfold set_size_buf, set_current_len. simpl. by rewrite drop_colon.
Qed.

(** A chunk that only extends the length digits is kept in [size_buf]. *)
Lemma prefix_digits (st : parser) (p c : bytes) (acc : list bytes) :
  current_len st = 0%N -> buf st = [] -> size_buf st = p ->
  all_digits (p ++ c) -> c <> [] -> (N.of_nat (length (p ++ c)) < ENC)%N ->
  pi_prefix st c acc = inr (POk (mk_parser 0 (p ++ c) [] (closed_with st)) acc).
Proof.
  intros Hcur Hbuf Hsb Hd Hc Hlen.
  destruct st as [cur sb b cl]; simpl in *; subst.
  unfold BTRequestStream.pi_prefix. simpl.
  destruct p as [|a p'].
  - unfold BTRequestStream.parse_length.
    rewrite find_colon_all_digits by done.
    simpl app in Hlen. replace (ENC <=? N.of_nat (length c))%N with false
      by (symmetry; apply N.leb_gt; lia).
    done.
  - cbv zeta. simpl.
    rewrite (take_ge c) by (rewrite length_app in Hlen; simpl in Hlen; lia).
    unfold BTRequestStream.parse_length.
    rewrite find_colon_all_digits by done.
    replace (ENC <=? N.of_nat (length (a :: p' ++ c)))%N with false
      by (symmetry; apply N.leb_gt; simpl app in Hlen; lia).
    done.
Qed.

Lemma valid_frame_header (ds body : bytes) :
  valid_frameb MAX_REQ_LEN ENC (ds, body) = true ->
  header_ok ds /\ value ds = N.of_nat (length body).
Proof.
  unfold valid_frameb. intros H.
  repeat match goal with H : _ && _ = true |- _ => apply andb_true_iff in H as [? ?] end.
  repeat match goal with
         | H : (_ <? _)%nat = true |- _ => apply Nat.ltb_lt in H
         | H : (_ <? _)%N = true |- _ => apply N.ltb_lt in H
         | H : (_ <=? _)%N = true |- _ => apply N.leb_le in H
         | H : (_ =? _)%N = true |- _ => apply N.eqb_eq in H
         end.
  unfold BTRequestStream.header_ok, value. split_and!; try lia.
  - destruct ds; simpl in *; [lia|done].
  - apply Forall_forall. intros x Hx.
    match goal with Hf : forallb _ _ = true |- _ => apply (proj1 (forallb_forall _ _) Hf) end.
    by apply list_elem_of_In.
Qed.

Lemma fill_message (b c body rest : bytes) :
  b ++ c = body ++ rest -> length b <= length body ->
  b ++ take (length body - length b) c = body /\ drop (length body - length b) c = rest.
Proof.
  intros E Hle.
  assert (Hb : body = b ++ drop (length b) body).
  { assert (take (length b) (b ++ c) = take (length b) (body ++ rest)) as Ht by (by rewrite E).
    rewrite take_app_length, take_app_le in Ht by done.
    rewrite <- (take_drop (length b) body) at 1. by rewrite <- Ht. }
  rewrite Hb, <- app_assoc in E. apply app_inv_head in E. subst c.
  assert (length (drop (length b) body) = length body - length b) as Hl by apply length_drop.
  rewrite <- Hl, take_app_length, drop_app_length. split; [by rewrite <- Hb|done].
Qed.

Lemma pi_loop_S (n : nat) (st : parser) (x : ascii) (c : bytes) (acc : list bytes) :
  pi_loop (S n) st (x :: c) acc =
  match pi_prefix st (x :: c) acc with
  | inr r => r
  | inl (st, req) =>
      if (current_len st <=? N.of_nat (length req + length (buf st)))%N
      then
        let '(st, req) :=
          if (N.of_nat (length (buf st)) <? current_len st)%N then
            let need := N.to_nat (current_len st) - length (buf st) in
            (set_buf st (buf st ++ take need req), drop need req)
          else (st, req) in
        let msg := buf st in
        if message_ok msg
        then pi_loop n (set_current_len (set_buf st []) 0) req (acc ++ [msg])
        else PErr (set_buf st []) acc
      else POk (set_buf st (buf st ++ req)) acc
  end.
Proof. reflexivity. Qed.

(** A chunk that does not complete the current frame is buffered. *)
Lemma loop_partial (n : nat) (st : parser) (p c : bytes) (acc : list bytes) :
  parser_inv st p -> pending (p ++ c) -> c <> [] ->
  exists st', pi_loop (S n) st c acc = POk st' acc /\ parser_inv st' (p ++ c) /\
              closed_with st' = closed_with st.
Proof.
  intros Hinv Hpend Hc. destruct c as [|x c']; [done|]. rewrite pi_loop_S.
  remember (x :: c') as c eqn:Ec. clear Ec.
  destruct Hinv as [(Hcur & Hbuf & Hsb & Hp & Hpl) | (ds & Ep & Hh & Hcur & Hsb & Hblt)].
  - destruct Hpend as [(Hd & Hl) | (ds & b & E & Hh & Hb)].
    + assert (Hlt : (N.of_nat (length (p ++ c)) < ENC)%N).
      { destruct Hl as [Hl|Hl]; [|done]. apply app_eq_nil in Hl as [_ ->]. done. }
      rewrite (prefix_digits st p c acc) by done.
      eexists; split; [reflexivity|]. split; [|done].
      left. simpl. split_and!; auto.
    + rewrite (prefix_header st p c ds b acc) by done. cbn iota beta.
      cbn [current_len size_buf buf closed_with length app]. rewrite Nat.add_0_r.
      replace (value ds <=? N.of_nat (length b))%N with false by (symmetry; apply N.leb_gt; lia).
      eexists; split; [reflexivity|]. split; [|done].
      right. exists ds. simpl. split_and!; auto.
  - destruct Hpend as [(Hd & _) | (ds' & b & E & Hh' & Hb)].
    + exfalso. rewrite Ep, <- app_assoc in Hd. apply all_digits_app in Hd as [_ Hd].
      inversion Hd as [|? ? Hcol _]. by rewrite colon_not_digit in Hcol.
    + rewrite Ep, <- app_assoc in E. cbn [app] in E.
      destruct (digits_colon_eq ds ds' _ _ (proj1 (proj2 Hh)) (proj1 (proj2 Hh')) E)
        as [<- Eb].
      assert (Hpre : pi_prefix st c acc = inl (st, c)).
      { unfold BTRequestStream.pi_prefix.
        replace (current_len st =? 0)%N with false; [done|].
        symmetry. apply N.eqb_neq. lia. }
      rewrite Hpre. cbn iota beta.
      assert (Hlen : length b = length (buf st) + length c)
        by (rewrite <- Eb, length_app; done).
      replace (current_len st <=? N.of_nat (length c + length (buf st)))%N with false
        by (symmetry; apply N.leb_gt; lia).
      eexists; split; [reflexivity|]. split; [|done].
      right. exists ds. simpl. rewrite Ep, <- app_assoc. cbn [app]. rewrite Eb.
      split_and!; auto. lia.
Qed.

(** A chunk that completes the current frame hands its message to
    [handle_input] and goes round the loop with the rest of the chunk. *)
Lemma loop_frame (n : nat) (st : parser) (p c ds body rest : bytes) (acc : list bytes) :
  parser_inv st p -> valid_frameb MAX_REQ_LEN ENC (ds, body) = true ->
  message_ok body = true -> p ++ c = frame (ds, body) ++ rest ->
  pi_loop (S n) st c acc =
    pi_loop n (mk_parser 0 [] [] (closed_with st)) rest (acc ++ [body]) /\
  length rest < length c.
Proof.
  intros Hinv Hv Hok E. destruct (valid_frame_header ds body Hv) as [Hh Hval].
  unfold frame in E. cbn [fst snd] in E. rewrite <- app_assoc in E. cbn [app] in E.
  destruct Hinv as [(Hcur & Hbuf & Hsb & Hp & Hpl) | (ds0 & Ep & Hh0 & Hcur & Hsb & Hblt)].
  - destruct (digits_prefix p c ds _ Hp (proj1 (proj2 Hh)) E) as (ds2 & Eds & Ec).
    destruct c as [|x c']; [by destruct ds2|]. rewrite pi_loop_S.
    remember (x :: c') as c eqn:Ecx. clear Ecx.
    rewrite (prefix_header st p c ds (body ++ rest) acc) by done. cbn iota beta.
    cbn [current_len size_buf buf closed_with length app]. rewrite Nat.add_0_r, Hval.
    rewrite length_app.
    replace (N.of_nat (length body) <=? N.of_nat (length body + length rest))%N with true
      by (symmetry; apply N.leb_le; lia).
    destruct (valid_frame_header ds body Hv) as [(_ & _ & _ & Hpos & _) _].
    replace (N.of_nat 0 <? N.of_nat (length body))%N with true
      by (symmetry; apply N.ltb_lt; lia).
    cbn [current_len buf]. rewrite Nat2N.id, Nat.sub_0_r, take_app_length, drop_app_length.
    cbn [buf set_buf]. rewrite Hok. split; [reflexivity|]. rewrite Ec, length_app. simpl. rewrite length_app. lia.
  - rewrite Ep, <- app_assoc in E. cbn [app] in E.
    destruct (digits_colon_eq ds0 ds _ _ (proj1 (proj2 Hh0)) (proj1 (proj2 Hh)) E)
      as [-> Eb].
    destruct st as [cur sb b cl]; cbn [current_len size_buf buf closed_with] in *.
    subst cur sb.
    assert (Hl : length b + length c = length body + length rest)
      by (rewrite <- !length_app, Eb; done).
    assert (Hlt : length b < length body) by lia.
    destruct c as [|x c']; [simpl in Hl; lia|]. rewrite pi_loop_S.
    remember (x :: c') as c eqn:Ecx. clear Ecx.
    assert (Hpre : pi_prefix (mk_parser (value ds) [] b cl) c acc =
                   inl (mk_parser (value ds) [] b cl, c)).
    { unfold BTRequestStream.pi_prefix. cbn [current_len].
      replace (value ds =? 0)%N with false; [done|].
      symmetry. apply N.eqb_neq. lia. }
    rewrite Hpre. cbn iota beta. cbn [current_len buf]. rewrite Hval.
    replace (N.of_nat (length body) <=? N.of_nat (length c + length b))%N with true
      by (symmetry; apply N.leb_le; lia).
    replace (N.of_nat (length b) <? N.of_nat (length body))%N with true
      by (symmetry; apply N.ltb_lt; lia).
    rewrite Nat2N.id. destruct (fill_message b c body rest Eb) as [F1 F2]; [lia|].
    cbn [buf set_buf current_len size_buf closed_with]. rewrite F1, F2.
    cbn [buf set_buf]. rewrite Hok. split; [reflexivity|].
    rewrite <- F2, length_drop. lia.
Qed.

(** A chunk that completes a frame whose message the [message] constructor
    rejects leaves the loop with the exception. *)
Lemma loop_frame_rejected (n : nat) (st : parser) (p c ds body rest : bytes) (acc : list bytes) :
  parser_inv st p -> valid_frameb MAX_REQ_LEN ENC (ds, body) = true ->
  message_ok body = false -> p ++ c = frame (ds, body) ++ rest ->
  exists st', pi_loop (S n) st c acc = PErr st' acc.
Proof.
  intros Hinv Hv Hok E. destruct (valid_frame_header ds body Hv) as [Hh Hval].
  unfold frame in E. cbn [fst snd] in E. rewrite <- app_assoc in E. cbn [app] in E.
  destruct Hinv as [(Hcur & Hbuf & Hsb & Hp & Hpl) | (ds0 & Ep & Hh0 & Hcur & Hsb & Hblt)].
  - destruct (digits_prefix p c ds _ Hp (proj1 (proj2 Hh)) E) as (ds2 & Eds & Ec).
    destruct c as [|x c']; [by destruct ds2|]. rewrite pi_loop_S.
    remember (x :: c') as c eqn:Ecx. clear Ecx.
    rewrite (prefix_header st p c ds (body ++ rest) acc) by done. cbn iota beta.
    cbn [current_len size_buf buf closed_with length app]. rewrite Nat.add_0_r, Hval.
    rewrite length_app.
    replace (N.of_nat (length body) <=? N.of_nat (length body + length rest))%N with true
      by (symmetry; apply N.leb_le; lia).
    destruct (valid_frame_header ds body Hv) as [(_ & _ & _ & Hpos & _) _].
    replace (N.of_nat 0 <? N.of_nat (length body))%N with true
      by (symmetry; apply N.ltb_lt; lia).
    cbn [current_len buf]. rewrite Nat2N.id, Nat.sub_0_r, take_app_length, drop_app_length.
    cbn [buf set_buf]. rewrite Hok. by eexists.
  - rewrite Ep, <- app_assoc in E. cbn [app] in E.
    destruct (digits_colon_eq ds0 ds _ _ (proj1 (proj2 Hh0)) (proj1 (proj2 Hh)) E)
      as [-> Eb].
    destruct st as [cur sb b cl]; cbn [current_len size_buf buf closed_with] in *.
    subst cur sb.
    assert (Hl : length b + length c = length body + length rest)
      by (rewrite <- !length_app, Eb; done).
    assert (Hlt : length b < length body) by lia.
    destruct c as [|x c']; [simpl in Hl; lia|]. rewrite pi_loop_S.
    remember (x :: c') as c eqn:Ecx. clear Ecx.
    assert (Hpre : pi_prefix (mk_parser (value ds) [] b cl) c acc =
                   inl (mk_parser (value ds) [] b cl, c)).
    { unfold BTRequestStream.pi_prefix. cbn [current_len].
      replace (value ds =? 0)%N with false; [done|].
      symmetry. apply N.eqb_neq. lia. }
    rewrite Hpre. cbn iota beta. cbn [current_len buf]. rewrite Hval.
    replace (N.of_nat (length body) <=? N.of_nat (length c + length b))%N with true
      by (symmetry; apply N.leb_le; lia).
    replace (N.of_nat (length b) <? N.of_nat (length body))%N with true
      by (symmetry; apply N.ltb_lt; lia).
    rewrite Nat2N.id. destruct (fill_message b c body rest Eb) as [F1 F2]; [lia|].
    cbn [buf set_buf current_len size_buf closed_with]. rewrite F1, F2.
    cbn [buf set_buf]. rewrite Hok. by eexists.
Qed.

Lemma pending_prefix (s x : bytes) : pending (s ++ x) -> pending s.
Proof.
  intros [(Hd & Hl) | (ds & b & E & Hh & Hb)].
  - left. apply all_digits_app in Hd as [Hd _]. split; [done|].
    destruct Hl as [Hl|Hl]; [left; by apply app_eq_nil in Hl as [-> _]|].
    right. rewrite length_app in Hl. lia.
  - apply app_eq_app in E as (k & [(Es & Ek) | (Eds & Ex)]).
    + destruct k as [|a k].
      * left. rewrite app_nil_r in Es. subst s.
        destruct Hh as (? & ? & ? & _). split; auto.
      * cbn [app] in Ek. injection Ek as <- Eb. right. exists ds, k.
        split_and!; [done|done|]. rewrite Eb, length_app in Hb. lia.
    + left. destruct Hh as (_ & Hd & Hl & _). rewrite Eds in Hd, Hl.
      apply all_digits_app in Hd as [Hd _]. split; [done|].
      right. rewrite length_app in Hl. lia.
Qed.

(** A strict prefix of a well-formed frame is the pending part of a frame. *)
Lemma pending_frame_prefix (f : bytes * bytes) (s k : bytes) :
  valid_frameb MAX_REQ_LEN ENC f = true -> s ++ k = frame f -> k <> [] -> pending s.
Proof.
  destruct f as [ds body]. intros Hv E Hk.
  destruct (valid_frame_header ds body Hv) as [Hh Hval].
  unfold frame in E. cbn [fst snd] in E.
  apply app_eq_app in E as (k0 & [(Es & Ek) | (Eds & Ex)]).
  - destruct k0 as [|a k0].
    + left. rewrite app_nil_r in Es. subst s.
      destruct Hh as (? & ? & ? & _). split; auto.
    + cbn [app] in Ek. injection Ek as <- Eb. right. exists ds, k0.
      split_and!; [done|done|]. rewrite Hval, Eb, length_app.
      destruct k; [done|simpl; lia].
  - left. destruct Hh as (_ & Hd & Hl & _). rewrite Eds in Hd, Hl.
    apply all_digits_app in Hd as [Hd _]. split; [done|].
    right. rewrite length_app in Hl. lia.
Qed.

Lemma pending_no_frame (f : bytes * bytes) (y : bytes) :
  valid_frameb MAX_REQ_LEN ENC f = true -> pending (frame f ++ y) -> False.
Proof.
  destruct f as [ds body]. intros Hv Hp.
  destruct (valid_frame_header ds body Hv) as [Hh Hval].
  unfold frame in Hp. cbn [fst snd] in Hp. rewrite <- app_assoc in Hp. cbn [app] in Hp.
  destruct Hp as [(Hd & _) | (ds' & b & E & Hh' & Hb)].
  - apply all_digits_app in Hd as [_ Hd]. inversion Hd as [|? ? Hcol _].
    by rewrite colon_not_digit in Hcol.
  - destruct (digits_colon_eq ds ds' _ _ (proj1 (proj2 Hh)) (proj1 (proj2 Hh')) E)
      as [<- <-].
    rewrite Hval, length_app in Hb. lia.
Qed.


Lemma loop_frames (fs : list (bytes * bytes)) (n : nat) (st : parser) (p c q : bytes)
    (acc : list bytes) :
  parser_inv st p -> pending q -> forallb (valid_frameb MAX_REQ_LEN ENC) fs = true ->
  forallb (fun f => message_ok f.2) fs = true ->
  p ++ c = encode fs ++ q -> length c < n ->
  exists st', pi_loop n st c acc = POk st' (acc ++ map snd fs) /\
              parser_inv st' q /\ closed_with st' = closed_with st.
Proof.
  revert n st p c acc.
  induction fs as [|[ds body] fs IH]; intros n st p c acc Hinv Hq Hv Hm E Hn;
    (destruct n as [|n]; [lia|]).
  - cbn in E. subst q. rewrite app_nil_r.
    destruct c as [|x c'].
    + exists st. rewrite app_nil_r. done.
    + apply (loop_partial n st p (x :: c') acc); done.
  - cbn [forallb] in Hv, Hm. apply andb_true_iff in Hv as [Hv1 Hv2].
    apply andb_true_iff in Hm as [Hm1 Hm2].
    unfold encode in E. cbn [map concat] in E. fold (encode fs) in E.
    destruct (loop_frame n st p c ds body (encode fs ++ q) acc Hinv Hv1 Hm1)
      as [-> Hlen]; [by rewrite app_assoc|].
    assert (Hinv0 : parser_inv (mk_parser 0 [] [] (closed_with st)) []).
    { left. cbn. split; [done|]. split; [done|]. split; [done|]. split; [constructor|]. by left. }
    destruct (IH n (mk_parser 0 [] [] (closed_with st)) [] (encode fs ++ q) (acc ++ [body])
                 Hinv0 Hq Hv2 Hm2 eq_refl ltac:(lia)) as (st' & Hrun & Hinv' & Hcl).
    exists st'. rewrite Hrun, <- app_assoc. done.
Qed.

(** Any split of a stream of frames into a head [s] and a tail [x] puts a
    pending partial frame at the end of [s]. *)
Lemma split_point (fs : list (bytes * bytes)) (s x q : bytes) :
  forallb (valid_frameb MAX_REQ_LEN ENC) fs = true -> pending q ->
  s ++ x = encode fs ++ q ->
  exists fs1 fs2 r, fs = fs1 ++ fs2 /\ s = encode fs1 ++ r /\ pending r /\
                    r ++ x = encode fs2 ++ q.
Proof.
  revert s. induction fs as [|f fs IH]; intros s Hv Hq E.
  - exists [], [], s. cbn in E |- *. split_and!; try done.
    subst q. by apply (pending_prefix s x).
  - cbn [forallb] in Hv. apply andb_true_iff in Hv as [Hv1 Hv2].
    unfold encode in E. cbn [map concat] in E. fold (encode fs) in E.
    rewrite <- app_assoc in E.
    apply app_eq_app in E as (k & [(Es & Ek) | (Ef & Ex)]).
    + destruct (IH k Hv2 Hq (eq_sym Ek)) as (fs1 & fs2 & r & -> & -> & Hr & Er).
      exists (f :: fs1), fs2, r. split_and!; try done.
      rewrite Es. unfold encode. cbn [map concat]. by rewrite app_assoc.
    + destruct k as [|a k].
      * rewrite app_nil_r in Ef. subst s.
        destruct (IH [] Hv2 Hq ltac:(by rewrite Ex)) as (fs1 & fs2 & r & -> & Er0 & Hr & Er).
        exists (f :: fs1), fs2, r. split_and!; try done.
        unfold encode. cbn [map concat]. fold (encode fs1).
        rewrite <- app_assoc, <- Er0. by rewrite app_nil_r.
      * exists [], (f :: fs), s. split_and!; try done.
        -- by apply (pending_frame_prefix f s (a :: k)).
        -- rewrite Ex, app_assoc, <- Ef. unfold encode. cbn [map concat]. by rewrite <- app_assoc.
Qed.

Lemma parser_inv_unique (st1 st2 : parser) (p : bytes) :
  parser_inv st1 p -> parser_inv st2 p -> closed_with st1 = closed_with st2 -> st1 = st2.
Proof.
  destruct st1 as [c1 s1 b1 k1], st2 as [c2 s2 b2 k2].
  unfold BTRequestStream.parser_inv. cbn [current_len size_buf buf closed_with]. intros H1 H2 ->.
  destruct H1 as [(-> & -> & -> & Hd & _) | (ds1 & E1 & Hh1 & -> & -> & _)],
           H2 as [(-> & -> & Es & Hd2 & _) | (ds2 & E2 & Hh2 & -> & -> & _)].
  - by subst.
  - exfalso. rewrite E2 in Hd. apply all_digits_app in Hd as [_ Hd].
    inversion Hd as [|? ? Hcol _]. by rewrite colon_not_digit in Hcol.
  - exfalso. rewrite E1 in Hd2. apply all_digits_app in Hd2 as [_ Hd2].
    inversion Hd2 as [|? ? Hcol _]. by rewrite colon_not_digit in Hcol.
  - rewrite E1 in E2.
    destruct (digits_colon_eq ds1 ds2 _ _ (proj1 (proj2 Hh1)) (proj1 (proj2 Hh2)) E2)
      as [-> ->]. done.
Qed.


Local Abbreviation feed := (feed MAX_REQ_LEN ENC BPARSER_ERROR_EXCEPTION message_ok).

Lemma parser_inv_pending (st : parser) (p : bytes) : parser_inv st p -> pending p.
Proof.
  intros [(_ & _ & _ & Hd & Hl) | (ds & E & Hh & Hc & _ & Hb)].
  - by left.
  - right. exists ds, (buf st). rewrite <- Hc. done.
Qed.

Lemma feed_frames (cs : list bytes) (st : parser) (p q : bytes) (fs : list (bytes * bytes)) :
  closed_with st = None -> parser_inv st p -> pending q ->
  forallb (valid_frameb MAX_REQ_LEN ENC) fs = true ->
  forallb (fun f => message_ok f.2) fs = true ->
  p ++ concat cs = encode fs ++ q ->
  exists st', feed st cs = (st', map snd fs) /\ parser_inv st' q /\ closed_with st' = None.
Proof.
  revert st p fs. induction cs as [|c cs IH]; intros st p fs Hcl Hinv Hq Hv Hm E.
  - cbn [concat] in E. rewrite app_nil_r in E.
    destruct fs as [|f fs].
    + cbn in E. subst p. by exists st.
    + exfalso. cbn [forallb] in Hv. apply andb_true_iff in Hv as [Hv1 _].
      apply (pending_no_frame f (encode fs ++ q) Hv1).
      apply parser_inv_pending in Hinv. rewrite E in Hinv.
      unfold encode in Hinv. cbn [map concat] in Hinv. by rewrite <- app_assoc in Hinv.
  - cbn [concat] in E. rewrite app_assoc in E.
    destruct (split_point fs (p ++ c) (concat cs) q Hv Hq E)
      as (fs1 & fs2 & r & -> & E1 & Hr & E2).
    rewrite forallb_app in Hv, Hm. apply andb_true_iff in Hv as [Hv1 Hv2].
    apply andb_true_iff in Hm as [Hm1 Hm2].
    destruct (loop_frames fs1 (S (length c)) st p c r [] Hinv Hr Hv1 Hm1 E1 ltac:(lia))
      as (st1 & Hrun & Hinv1 & Hcl1).
    rewrite Hcl in Hcl1.
    destruct (IH st1 r fs2 Hcl1 Hinv1 Hq Hv2 Hm2 E2) as (st2 & Hfeed & Hinv2 & Hcl2).
    exists st2. split; [|done].
    cbn [BTRequestStream.feed]. unfold BTRequestStream.receive, is_closing.
    rewrite Hcl. unfold BTRequestStream.process_incoming. rewrite Hrun.
    cbn iota beta. rewrite Hfeed. by rewrite map_app.
Qed.

(** C3: feeding the wire bytes of whole frames, whose messages the
    [message] constructor accepts, followed by a strict prefix of one more
    frame, cut into any chunks, delivers exactly the messages of the whole
    frames, in order, and ends in the same parser state as feeding all the
    bytes at once; the incomplete frame is not delivered. *)
Theorem process_incoming_chunking (fs : list (bytes * bytes)) (f : bytes * bytes)
    (k : nat) (cs : list bytes) :
  forallb (valid_frameb MAX_REQ_LEN ENC) fs = true ->
  forallb (fun f => message_ok f.2) fs = true ->
  valid_frameb MAX_REQ_LEN ENC f = true ->
  k < length (frame f) ->
  concat cs = encode fs ++ take k (frame f) ->
  feed init_parser cs = feed init_parser [concat cs] /\
  (feed init_parser cs).2 = map snd fs.
Proof.
  intros Hv Hm Hf Hk E.
  assert (Hinv0 : parser_inv init_parser []).
  { left. cbn. split; [done|]. split; [done|]. split; [done|]. split; [constructor|]. by left. }
  assert (Hq : pending (take k (frame f))).
  { apply (pending_frame_prefix f _ (drop k (frame f)) Hf); [apply take_drop|].
    intros Hd. apply (f_equal length) in Hd. rewrite length_drop in Hd. cbn in Hd. lia. }
  destruct (feed_frames cs init_parser [] _ fs eq_refl Hinv0 Hq Hv Hm E)
    as (st1 & F1 & I1 & C1).
  destruct (feed_frames [concat cs] init_parser [] _ fs eq_refl Hinv0 Hq Hv Hm
              ltac:(by rewrite <- E; cbn; rewrite app_nil_r))
    as (st2 & F2 & I2 & C2).
  rewrite F1, F2. split; [|done].
  f_equal. apply (parser_inv_unique st1 st2 _ I1 I2). congruence.
Qed.

Lemma loop_frames_rejected (fs : list (bytes * bytes)) (ds body rest : bytes) (n : nat)
    (st : parser) (p c : bytes) (acc : list bytes) :
  parser_inv st p -> forallb (valid_frameb MAX_REQ_LEN ENC) fs = true ->
  forallb (fun f => message_ok f.2) fs = true ->
  valid_frameb MAX_REQ_LEN ENC (ds, body) = true -> message_ok body = false ->
  p ++ c = encode fs ++ frame (ds, body) ++ rest -> length c < n ->
  exists st', pi_loop n st c acc = PErr st' (acc ++ map snd fs).
Proof.
  revert n st p c acc.
  induction fs as [|[ds1 body1] fs IH]; intros n st p c acc Hinv Hv Hm Hf Hbad E Hn;
    (destruct n as [|n]; [lia|]).
  - rewrite app_nil_r. apply (loop_frame_rejected n st p c ds body rest acc); done.
  - cbn [forallb] in Hv, Hm. apply andb_true_iff in Hv as [Hv1 Hv2].
    apply andb_true_iff in Hm as [Hm1 Hm2].
    unfold encode in E. cbn [map concat] in E. fold (encode fs) in E.
    destruct (loop_frame n st p c ds1 body1 (encode fs ++ frame (ds, body) ++ rest) acc
                Hinv Hv1 Hm1) as [-> Hlen]; [by rewrite app_assoc|].
    assert (Hinv0 : parser_inv (mk_parser 0 [] [] (closed_with st)) []).
    { left. cbn. split; [done|]. split; [done|]. split; [done|]. split; [constructor|]. by left. }
    destruct (IH n (mk_parser 0 [] [] (closed_with st)) [] _ (acc ++ [body1])
                 Hinv0 Hv2 Hm2 Hf Hbad eq_refl ltac:(lia)) as (st' & Hrun).
    exists st'. rewrite Hrun, <- app_assoc. done.
Qed.

(** A frame whose message the [message] constructor rejects, arriving
    after whole frames in the same chunk of a fresh stream, closes the
    stream with the protocol-error code: the messages of the frames before
    it are delivered, and nothing from it on, in that chunk or any later
    one. *)
Theorem rejected_message_closes (fs : list (bytes * bytes)) (ds body rest : bytes)
    (cs : list bytes) :
  forallb (valid_frameb MAX_REQ_LEN ENC) fs = true ->
  forallb (fun f => message_ok f.2) fs = true ->
  valid_frameb MAX_REQ_LEN ENC (ds, body) = true -> message_ok body = false ->
  (feed init_parser ((encode fs ++ frame (ds, body) ++ rest) :: cs)).2 = map snd fs /\
  closed_with (feed init_parser ((encode fs ++ frame (ds, body) ++ rest) :: cs)).1 =
    Some BPARSER_ERROR_EXCEPTION.
Proof.
  intros Hv Hm Hf Hbad.
  assert (Hinv0 : parser_inv init_parser []).
  { left. cbn. split; [done|]. split; [done|]. split; [done|]. split; [constructor|]. by left. }
  set (c := encode fs ++ frame (ds, body) ++ rest).
  destruct (loop_frames_rejected fs ds body rest (S (length c)) init_parser [] c []
              Hinv0 Hv Hm Hf Hbad eq_refl ltac:(lia)) as (st' & Hrun).
  assert (Hclosed : forall st cs, is_closing st = true -> feed st cs = (st, [])).
  { intros st cs0 Hc. induction cs0 as [|c0 cs0 IHc]; [done|].
    cbn [BTRequestStream.feed]. unfold BTRequestStream.receive. rewrite Hc. by rewrite IHc. }
  cbn [BTRequestStream.feed]. unfold BTRequestStream.receive, is_closing. cbn [closed_with init_parser].
  unfold BTRequestStream.process_incoming. rewrite Hrun.
  rewrite Hclosed by reflexivity. cbn. by rewrite app_nil_r.
Qed.

End ParserFacts.

Lemma process_incoming_chunking_witness :
  (10000000 <= SIZE_MAX)%N /\
  forallb (valid_frameb 10000000 9) [(bytes_of "16", bytes_of "l1:Ci42e3:end0:e")] = true /\
  forallb (fun f => starts_list f.2) [(bytes_of "16", bytes_of "l1:Ci42e3:end0:e")] = true /\
  valid_frameb 10000000 9 (bytes_of "3", bytes_of "abc") = true /\
  3 < length (frame (bytes_of "3", bytes_of "abc")) /\
  concat [bytes_of "1"; bytes_of "6:l1:Ci4"; bytes_of "2e3:end0:e3"; bytes_of ":a"] =
    encode [(bytes_of "16", bytes_of "l1:Ci42e3:end0:e")]
      ++ take 3 (frame (bytes_of "3", bytes_of "abc")) /\
  (feed 10000000 9 1 starts_list init_parser
     [bytes_of "1"; bytes_of "6:l1:Ci4"; bytes_of "2e3:end0:e3"; bytes_of ":a"] =
   feed 10000000 9 1 starts_list init_parser
     [concat [bytes_of "1"; bytes_of "6:l1:Ci4"; bytes_of "2e3:end0:e3"; bytes_of ":a"]] /\
   (feed 10000000 9 1 starts_list init_parser
     [bytes_of "1"; bytes_of "6:l1:Ci4"; bytes_of "2e3:end0:e3"; bytes_of ":a"]).2 =
   map snd [(bytes_of "16", bytes_of "l1:Ci42e3:end0:e")]).
Proof.
  split; [vm_compute; discriminate|].
  split; [vm_compute; reflexivity|].
  split; [vm_compute; reflexivity|].
  split; [vm_compute; reflexivity|].
  split; [vm_compute; lia|].
  split; [vm_compute; reflexivity|].
  apply (process_incoming_chunking 10000000 9 1 starts_list ltac:(vm_compute; discriminate)
           [(bytes_of "16", bytes_of "l1:Ci42e3:end0:e")] (bytes_of "3", bytes_of "abc") 3);
    vm_compute; try reflexivity; lia.
Defined.
Lemma rejected_message_closes_witness :
  (10000000 <= SIZE_MAX)%N /\
  (feed 10000000 9 1 starts_list init_parser
     [bytes_of "16:l1:Ci42e3:end0:e3:abc2:l"; bytes_of "e"]).2 = [bytes_of "l1:Ci42e3:end0:e"] /\
  closed_with (feed 10000000 9 1 starts_list init_parser
     [bytes_of "16:l1:Ci42e3:end0:e3:abc2:l"; bytes_of "e"]).1 = Some 1%N.
Proof.
  split; [vm_compute; discriminate|].
  apply (rejected_message_closes 10000000 9 1 starts_list ltac:(vm_compute; discriminate)
           [(bytes_of "16", bytes_of "l1:Ci42e3:end0:e")] (bytes_of "3") (bytes_of "abc")
           (bytes_of "2:l") [bytes_of "e"]); reflexivity.
Defined.

End BTRequestStream_facts.

(** * Protocol errors of the length prefix *)
Module BTRequestStream_errors.
Import BTRequestStream.

(** C4 (counterexample): for the input [":"] the bytes before the first ':'
    are no decimal at all; the claim's last case would have [parse_length]
    set [current_len] and return 1, but it closes the stream with the
    protocol-error code and throws. *)
Lemma parse_length_empty_prefix :
  parse_length 10000000 9 1 init_parser (bytes_of ":") = PThrow (close init_parser 1).
Proof. vm_compute. reflexivity. Qed.

Section Errors.
Variable MAX_REQ_LEN : N.
Variable MAX_REQ_LEN_ENCODED : N.
Variable BPARSER_ERROR_EXCEPTION : N.
Variable message_ok : bytes -> bool.

Local Abbreviation parse_length := (parse_length MAX_REQ_LEN MAX_REQ_LEN_ENCODED BPARSER_ERROR_EXCEPTION).
Local Abbreviation receive :=
  (receive MAX_REQ_LEN MAX_REQ_LEN_ENCODED BPARSER_ERROR_EXCEPTION message_ok).

(** C4 (amended): [parse_length] returns 0, leaving the state unchanged,
    exactly when the input has no ':' and is shorter than
    [MAX_REQ_LEN_ENCODED]; with no ':' and at least [MAX_REQ_LEN_ENCODED]
    bytes it throws; when the bytes before the first ':' do not start with a
    decimal digit, or their leading decimal does not fit a [size_t], is 0 or
    exceeds [MAX_REQ_LEN], it closes the stream with the protocol-error code
    and throws; otherwise it sets [current_len] to that leading decimal and
    returns the position of the ':' plus one. When a frame's length prefix
    makes it throw, [receive] delivers no message and closes the stream with
    the protocol-error code. *)
Theorem parse_length_cases (st : parser) (req : bytes) :
  (forall st', parse_length st req = PLen st' 0 <->
     st' = st /\ find_colon req = None /\ (N.of_nat (length req) < MAX_REQ_LEN_ENCODED)%N) /\
  (find_colon req = None -> (MAX_REQ_LEN_ENCODED <= N.of_nat (length req))%N ->
     parse_length st req = PThrow st) /\
  (forall pos, find_colon req = Some pos ->
     let ds := digit_run (take pos req) in
     (ds = [] \/ (SIZE_MAX < digits_value ds)%N \/ digits_value ds = 0%N \/
      (MAX_REQ_LEN < digits_value ds)%N) ->
     exists st', parse_length st req = PThrow st' /\
                 closed_with st' = Some BPARSER_ERROR_EXCEPTION) /\
  (forall pos, find_colon req = Some pos ->
     let ds := digit_run (take pos req) in
     ds <> [] -> (digits_value ds <= SIZE_MAX)%N -> (0 < digits_value ds)%N ->
     (digits_value ds <= MAX_REQ_LEN)%N ->
     parse_length st req = PLen (set_current_len st (digits_value ds)) (S pos)) /\
  (forall st', req <> [] -> closed_with st = None -> current_len st = 0%N ->
     size_buf st = [] -> parse_length st req = PThrow st' ->
     receive st req = (close st' BPARSER_ERROR_EXCEPTION, [])).
Proof.
  split_and!.
  - intros st'. unfold BTRequestStream.parse_length.
    destruct (find_colon req) as [pos|].
    + split; [|intros (_ & Hc & _); discriminate].
      unfold from_chars. destruct (digit_run (take pos req)) as [|d ds]; [discriminate|].
      destruct (_ <=? SIZE_MAX)%N; [|discriminate].
      destruct (_ || _)%bool; discriminate.
    + destruct (N.leb_spec MAX_REQ_LEN_ENCODED (N.of_nat (length req))).
      * split; [discriminate|]. intros (_ & _ & Hl). lia.
      * split; [intros E; injection E as <-; done|]. intros (-> & _). done.
  - intros Hc Hl. unfold BTRequestStream.parse_length. rewrite Hc.
    by replace (MAX_REQ_LEN_ENCODED <=? N.of_nat (length req))%N with true
      by (symmetry; apply N.leb_le; lia).
  - intros pos Hc. cbv zeta. intros Hbad. unfold BTRequestStream.parse_length. rewrite Hc.
    unfold from_chars.
    destruct (digit_run (take pos req)) as [|d ds] eqn:Eds; [by eexists|].
    set (v := digits_value (d :: ds)) in *.
    destruct (N.leb_spec v SIZE_MAX) as [Hs|Hs]; [|by eexists].
    destruct Hbad as [Hn | [Hb | [H0 | Hm]]]; [discriminate|lia| |].
    + rewrite H0. cbn. by eexists.
    + replace (MAX_REQ_LEN <? v)%N with true by (symmetry; apply N.ltb_lt; lia).
      rewrite orb_true_r. by eexists.
  - intros pos Hc. cbv zeta. intros Hne Hs H0 Hm. unfold BTRequestStream.parse_length.
    rewrite Hc. unfold from_chars.
    destruct (digit_run (take pos req)) as [|d ds] eqn:Eds; [done|].
    set (v := digits_value (d :: ds)) in *.
    replace (v <=? SIZE_MAX)%N with true by (symmetry; apply N.leb_le; lia).
    replace (v =? 0)%N with false by (symmetry; apply N.eqb_neq; lia).
    replace (MAX_REQ_LEN <? v)%N with false by (symmetry; apply N.ltb_ge; lia).
    done.
  - intros st' Hne Hcl Hcur Hsb Hth. unfold BTRequestStream.receive, is_closing.
    rewrite Hcl. unfold BTRequestStream.process_incoming.
    destruct req as [|x r]; [done|]. cbn [length BTRequestStream.pi_loop].
    unfold BTRequestStream.pi_prefix. rewrite Hcur, Hsb. cbn [N.eqb]. rewrite Hth. done.
Qed.

End Errors.

Lemma parse_length_cases_witness :
  parse_length 10000000 9 1 init_parser (bytes_of "16:x") =
    PLen (set_current_len init_parser 16) 3.
Proof.
  destruct (parse_length_cases 10000000 9 1 starts_list init_parser (bytes_of "16:x"))
    as (_ & _ & _ & H & _).
  apply (H 2); vm_compute; try reflexivity; discriminate.
Defined.

End BTRequestStream_errors.

(** * Properties of [handle_input] and [check_timeouts] *)
Module BTRequestStream_requests_facts.
Import BTRequestStream_requests.

(** C1: a response whose [req_id] (3) matches no in-flight request, while a
    later request (5) is in flight, is not dropped: [lower_bound] stops at
    request 5, whose callback gets the response and which is removed. *)
Theorem handle_input_unmatched_response :
  handle_input [mk_sent_request 5 0] [] (mk_message "R" 3 "") =
    (Completed (mk_sent_request 5 0), []).
Proof. reflexivity. Qed.

Lemma check_timeouts_nonempty (is_expired : sent_request -> Z -> bool) (now : Z)
    (l : list sent_request) :
  l <> [] ->
  check_timeouts is_expired now l =
    Some (drop (expired_prefix is_expired now l) l, take (expired_prefix is_expired now l) l).
Proof.
  unfold check_timeouts. induction l as [|f rest IH]; [done|]. intros _.
  cbn [check_timeouts_loop expired_prefix].
  destruct (is_expired f now); [|done].
  destruct rest as [|g rest'].
  - done.
  - rewrite IH by done. done.
Qed.

(** C2: [check_timeouts] on an empty [sent_reqs] calls [front()] on an empty
    deque (the model's [None]); on a non-empty one it fails exactly the
    leading expired requests and keeps the rest. *)
Theorem check_timeouts_empty_front (is_expired : sent_request -> Z -> bool) (now : Z) :
  check_timeouts is_expired now [] = None /\
  (forall l, l <> [] ->
     check_timeouts is_expired now l =
       Some (drop (expired_prefix is_expired now l) l,
             take (expired_prefix is_expired now l) l)).
Proof.
  split; [reflexivity|]. intros l Hl. by apply check_timeouts_nonempty.
Qed.

Lemma check_timeouts_empty_front_witness :
  check_timeouts (fun sr now => (req_id sr <? now)%Z) 10 [] = None /\
  check_timeouts (fun sr now => (req_id sr <? now)%Z) 10
    [mk_sent_request 4 0; mk_sent_request 12 1] =
    Some ([mk_sent_request 12 1], [mk_sent_request 4 0]).
Proof.
  destruct (check_timeouts_empty_front (fun sr now => (req_id sr <? now)%Z) 10) as [H1 H2].
  split; [exact H1|]. rewrite H2 by discriminate. reflexivity.
Defined.

End BTRequestStream_requests_facts.

(** * Properties of [Ticker::start] and [Ticker::stop] *)
Module TickerModel_facts.
Import TickerModel.

(** C5 (counterexample): on a running Ticker, [start(); start()] returns
    [(false, false)], not [(true, false)]. *)
Lemma start_start_running :
  (calls [Start true; Start true] (mk_Ticker true true)).1 = [false; false].
Proof. reflexivity. Qed.

Lemma calls_last_transition (cs : list ticker_call) (t : Ticker) :
  is_running (calls cs t).2 =
    match last_transition cs (calls cs t).1 with Some b => b | None => is_running t end.
Proof.
  revert t. induction cs as [|c cs IH]; intros t; [done|].
  cbn [calls]. destruct (call c t) as [r t1] eqn:Ec.
  specialize (IH t1). destruct (calls cs t1) as [rs t2]. cbn in IH |- *.
  rewrite IH. destruct (last_transition cs rs); [done|].
  destruct c as [ok|ok], t as [run fs]; unfold call, start, stop, is_running in *;
    destruct run, ok; cbn in Ec; injection Ec as <- <-; done.
Qed.

(** C5 (amended): assuming [event_add] and [event_del] succeed,
    [start(); start()] returns [(true, false)] on a stopped Ticker and
    [(false, false)] on a running one, and [stop(); stop()] returns
    [(true, false)] on a running Ticker and [(false, false)] on a stopped one.
    A new Ticker is stopped, and after any sequence of calls (whatever the
    timer operations return) [is_running()] is the direction of the last call
    that returned [true], or the initial state when none did. *)
Theorem ticker_transitions (t : Ticker) (has_f : bool) (cs : list ticker_call) :
  (is_running t = false -> (calls [Start true; Start true] t).1 = [true; false]) /\
  (is_running t = true -> (calls [Start true; Start true] t).1 = [false; false]) /\
  (is_running t = true -> (calls [Stop true; Stop true] t).1 = [true; false]) /\
  (is_running t = false -> (calls [Stop true; Stop true] t).1 = [false; false]) /\
  is_running (new_Ticker has_f) = false /\
  is_running (calls cs t).2 =
    match last_transition cs (calls cs t).1 with Some b => b | None => is_running t end.
Proof.
  destruct t as [run fs]. unfold is_running. cbn [_is_running].
  split_and!; try (intros ->; reflexivity); [reflexivity|].
  apply calls_last_transition.
Qed.

Lemma ticker_transitions_witness :
  (calls [Start true; Start true] (new_Ticker true)).1 = [true; false] /\
  is_running (calls [Start true; Stop false; Stop true; Start false]
                (new_Ticker true)).2 = false.
Proof.
  destruct (ticker_transitions (new_Ticker true) true
              [Start true; Stop false; Stop true; Start false])
    as (H1 & _ & _ & _ & _ & H6).
  split; [apply H1; reflexivity|]. rewrite H6. reflexivity.
Defined.

End TickerModel_facts.

(** * Properties of weak-bound Tickers *)
Module WeakTicker_facts.
Import WeakTicker.

Lemma run_app (es1 es2 : list wevent) (s : wstate) :
  run (es1 ++ es2) s = run es2 (run es1 s).
Proof. unfold run. by rewrite fold_left_app. Qed.

Lemma run_cons (e : wevent) (es : list wevent) (s : wstate) :
  run (e :: es) s = run es (step e s).
Proof. reflexivity. Qed.

(** With the owner gone, [func] never runs again, and the event fires at
    most once more, and only while the Ticker still exists. *)
Lemma run_owner_gone (es : list wevent) (s : wstate) :
  owner_alive s = false ->
  func_runs (run es s) = func_runs s /\
  (fires (run es s) <= fires s + if ticker_alive s then 1 else 0)%nat.
Proof.
  revert s. induction es as [|e es IH]; intros s Ho; [cbn; lia|].
  rewrite run_cons. destruct e; cbn [step].
  - destruct (ticker_alive s) eqn:Ht; [|pose proof (IH s Ho) as H; by rewrite Ht in H].
    rewrite Ho. destruct (IH (mk_wstate false false (func_runs s) (S (fires s))) eq_refl)
      as [H1 H2].
    cbn in H1, H2. split; [done|lia].
  - destruct (IH (mk_wstate false (ticker_alive s) (func_runs s) (fires s)) eq_refl)
      as [H1 H2].
    cbn in H1, H2. split; [done|]. destruct (ticker_alive s); lia.
Qed.

(** C6: at each expiry of a weak-bound Ticker the owner is locked first: if
    that succeeds [func] runs and the Ticker stays, otherwise [func] does not
    run and the Ticker is gone. After the owner is dropped, whatever happened
    before and whatever happens after, [func] never runs again and the timer
    fires at most once more. *)
Theorem weak_ticker_owner_drop (s : wstate) (pre post : list wevent) :
  (ticker_alive s = true -> owner_alive s = true ->
     func_runs (step Fire s) = S (func_runs s) /\ ticker_alive (step Fire s) = true) /\
  (ticker_alive s = true -> owner_alive s = false ->
     func_runs (step Fire s) = func_runs s /\ ticker_alive (step Fire s) = false) /\
  (func_runs (run (pre ++ DropOwner :: post) s) = func_runs (run (pre ++ [DropOwner]) s) /\
   (fires (run (pre ++ DropOwner :: post) s) <= S (fires (run (pre ++ [DropOwner]) s)))%nat).
Proof.
  split_and!.
  - intros Ht Ho. cbn. by rewrite Ht, Ho.
  - intros Ht Ho. cbn. by rewrite Ht, Ho.
  - replace (pre ++ DropOwner :: post) with ((pre ++ [DropOwner]) ++ post)
      by by rewrite <- app_assoc.
    rewrite (run_app _ post). apply run_owner_gone.
    rewrite run_app. reflexivity.
  - replace (pre ++ DropOwner :: post) with ((pre ++ [DropOwner]) ++ post)
      by by rewrite <- app_assoc.
    rewrite (run_app _ post).
    destruct (run_owner_gone post (run (pre ++ [DropOwner]) s)) as [_ H];
      [rewrite run_app; reflexivity|].
    destruct (ticker_alive _); lia.
Qed.

Lemma weak_ticker_owner_drop_witness :
  func_runs (step Fire call_every_state) = 1%nat /\
  func_runs (run ([Fire; Fire] ++ DropOwner :: [Fire; Fire; Fire]) call_every_state) = 2%nat.
Proof.
  destruct (weak_ticker_owner_drop call_every_state [Fire; Fire] [Fire; Fire; Fire])
    as ([H1 _] & _ & H3 & _); [reflexivity|reflexivity|].
  split; [exact H1|]. rewrite H3. reflexivity.
Defined.

End WeakTicker_facts.

(** * Properties of [call_later] *)
Module CallLater_facts.
Import CallLater.

(** C7: on the loop thread [call_later] schedules a one-shot for the full
    delay; off it, it queues a job holding the target instant [now + delay].
    When the loop runs the job it computes the residual [target - now']: it
    runs [f] at once when the residual is at most 0, and otherwise schedules
    a one-shot for the residual, in whole microseconds (exactly the residual
    with a microsecond clock). *)
Theorem call_later_rebase (period now delay now' : Z) :
  (0 < period)%Z ->
  call_later period true now delay = Oneshot delay /\
  call_later period false now delay = Job (now + delay * period) /\
  ((now + delay * period - now' <= 0)%Z ->
     run_job period (now + delay * period) now' = RunNow) /\
  ((0 < now + delay * period - now')%Z ->
     run_job period (now + delay * period) now' =
       Oneshot (Z.quot (now + delay * period - now') period) /\
     (Z.quot (now + delay * period - now') period * period <= now + delay * period - now' <
      (Z.quot (now + delay * period - now') period + 1) * period)%Z) /\
  (period = 1%Z -> (0 < now + delay * period - now')%Z ->
     run_job period (now + delay * period) now' = Oneshot (now + delay * period - now')).
Proof.
  intros Hp. split_and!; [reflexivity|reflexivity| | |].
  - intros Hr. unfold run_job. by replace (now + delay * period <=? now')%Z with true
      by (symmetry; apply Z.leb_le; lia).
  - intros Hr. unfold run_job.
    replace (now + delay * period <=? now')%Z with false by (symmetry; apply Z.leb_gt; lia).
    split; [reflexivity|].
    pose proof (Z.quot_rem' (now + delay * period - now') period) as Hq.
    pose proof (Z.rem_bound_pos (now + delay * period - now') period ltac:(lia) ltac:(lia)).
    nia.
  - intros -> Hr. unfold run_job.
    replace (now + delay * 1 <=? now')%Z with false by (symmetry; apply Z.leb_gt; lia).
    by rewrite Z.quot_1_r.
Qed.

Lemma call_later_rebase_witness :
  run_job 1 (100 + 250 * 1) 300 = Oneshot 50 /\ run_job 1 (100 + 250 * 1) 400 = RunNow.
Proof.
  destruct (call_later_rebase 1 100 250 300 ltac:(lia)) as (_ & _ & _ & _ & H5).
  destruct (call_later_rebase 1 100 250 400 ltac:(lia)) as (_ & _ & H3 & _).
  split; [apply H5; lia | apply H3; lia].
Defined.

End CallLater_facts.

(** * Properties of the ticker registry *)
Module LoopTickers_facts.
Import TickerModel LoopTickers.

Lemma registry_ok_empty : registry_ok empty_Loop.
Proof. split; intros *; cbn; rewrite lookup_empty; discriminate. Qed.

Lemma registry_ok_clear (L : Loop) : registry_ok L -> registry_ok (clear_old_tickers L).
Proof.
  intros [Hb Hd]. unfold clear_old_tickers. split; cbn.
  - intros id l a. rewrite lookup_fmap.
    destruct (tickers L !! id) as [l0|] eqn:E; [|discriminate].
    cbn. intros [= <-] Ha. apply filter_In in Ha as [Ha _]. eauto.
  - intros id1 id2 l1 l2 a. rewrite !lookup_fmap.
    destruct (tickers L !! id1) as [l01|] eqn:E1; [|discriminate].
    destruct (tickers L !! id2) as [l02|] eqn:E2; [|discriminate].
    cbn. intros [= <-] [= <-] H1 H2.
    apply filter_In in H1 as [H1 _]. apply filter_In in H2 as [H2 _]. eauto.
Qed.

Lemma registry_ok_push (id : caller_id_t) (L1 : Loop) (h : gmap nat Ticker) :
  registry_ok L1 ->
  registry_ok (mk_Loop h (<[id := default [] (tickers L1 !! id) ++ [next_ticker L1]]> (tickers L1))
                 (S (next_ticker L1))).
Proof.
  intros [Hb Hd].
  set (l := default [] (tickers L1 !! id)).
  assert (Hl : forall a, In a l -> (a < next_ticker L1)%nat).
  { intros a Ha. unfold l in Ha. destruct (tickers L1 !! id) eqn:E; [|done]. eauto. }
  assert (Hl2 : forall id2 l2 a, tickers L1 !! id2 = Some l2 -> In a l -> In a l2 -> id = id2).
  { intros id2 l2 a E2 Ha Ha2. unfold l in Ha.
    destruct (tickers L1 !! id) eqn:E; [|done]. eauto. }
  split; cbn [tickers next_ticker].
  - intros id' l' a. destruct (decide (id' = id)) as [->|Hne].
    + rewrite lookup_insert_eq. intros [= <-] Ha.
      apply in_app_or in Ha as [Ha|[<-|[]]]; [specialize (Hl a Ha)|]; lia.
    + rewrite lookup_insert_ne by done. intros E Ha. specialize (Hb _ _ _ E Ha). lia.
  - intros id1 id2 l1 l2 a.
    destruct (decide (id1 = id)) as [->|Hne1], (decide (id2 = id)) as [->|Hne2]; try done.
    + rewrite lookup_insert_eq, lookup_insert_ne by done. intros [= <-] E2 H1 H2.
      apply in_app_or in H1 as [H1|[<-|[]]]; [by apply (Hl2 id2 l2 a)|].
      specialize (Hb _ _ _ E2 H2). lia.
    + rewrite lookup_insert_ne, lookup_insert_eq by done. intros E1 [= <-] H1 H2.
      apply in_app_or in H2 as [H2|[<-|[]]]; [symmetry; by apply (Hl2 id1 l1 a)|].
      specialize (Hb _ _ _ E1 H1). lia.
    + rewrite !lookup_insert_ne by done. eauto.
Qed.

Lemma registry_ok_make_handler (id : caller_id_t) (L : Loop) :
  registry_ok L -> registry_ok (make_handler id L).2.
Proof.
  intros HL. apply (registry_ok_push id (clear_old_tickers L)). by apply registry_ok_clear.
Qed.

Lemma update_ticker_tickers (a : nat) (g : Ticker -> Ticker) (L : Loop) :
  tickers (update_ticker a g L) = tickers L /\ next_ticker (update_ticker a g L) = next_ticker L.
Proof. unfold update_ticker. by destruct (heap L !! a). Qed.

Lemma stop_tickers_tickers (id : caller_id_t) (L : Loop) :
  tickers (stop_tickers id L) = tickers L /\ next_ticker (stop_tickers id L) = next_ticker L.
Proof. unfold stop_tickers. by destruct (tickers L !! id). Qed.

Lemma registry_ok_same (L L' : Loop) :
  tickers L' = tickers L -> next_ticker L' = next_ticker L -> registry_ok L -> registry_ok L'.
Proof. intros E1 E2. unfold registry_ok. by rewrite E1, E2. Qed.

Lemma registry_ok_step (L : Loop) (o : loop_op) : registry_ok L -> registry_ok (loop_step L o).
Proof.
  intros HL. destruct o as [id si ok|a|a ok|a ok|id]; cbn [loop_step].
  - pose proof (registry_ok_make_handler id L HL) as H.
    destruct (make_handler id L) as [a L1]. cbn in H.
    destruct (update_ticker_tickers a
                (fun t => let t := mk_Ticker (_is_running t) true in
                          if si then (start ok t).2 else t) L1) as [E1 E2].
    by apply (registry_ok_same L1).
  - by apply (registry_ok_same L).
  - destruct (update_ticker_tickers a (fun t => (start ok t).2) L) as [E1 E2].
    by apply (registry_ok_same L).
  - destruct (update_ticker_tickers a (fun t => (stop ok t).2) L) as [E1 E2].
    by apply (registry_ok_same L).
  - destruct (stop_tickers_tickers id L) as [E1 E2]. by apply (registry_ok_same L).
Qed.

Lemma registry_ok_run (ops : list loop_op) : registry_ok (run_loop ops).
Proof.
  unfold run_loop. generalize registry_ok_empty. generalize empty_Loop.
  induction ops as [|o ops IH]; intros L HL; [done|]. cbn. apply IH.
  by apply registry_ok_step.
Qed.

Lemma halt_halt (t : Ticker) : halt (halt t) = halt t.
Proof. destruct t as [[] []]; reflexivity. Qed.

Lemma fold_halt (l : list nat) (h : gmap nat Ticker) (a : nat) :
  fold_left (fun h a => match h !! a with Some t => <[a := halt t]> h | None => h end) l h !! a =
  if in_dec Nat.eq_dec a l then halt <$> h !! a else h !! a.
Proof.
  revert h. induction l as [|x l IH]; intros h; [done|]. cbn [fold_left]. rewrite IH.
  assert (Hg : (match h !! x with Some t => <[x := halt t]> h | None => h end) !! a =
               if Nat.eq_dec x a then halt <$> h !! a else h !! a).
  { destruct (Nat.eq_dec x a) as [<-|Hne].
    - destruct (h !! x) eqn:E; [by rewrite lookup_insert_eq|done].
    - destruct (h !! x); [by rewrite lookup_insert_ne|done]. }
  rewrite Hg.
  destruct (in_dec Nat.eq_dec a l) as [Hin|Hnin], (in_dec Nat.eq_dec a (x :: l)) as [Hin'|Hnin'].
  - destruct (Nat.eq_dec x a); [|done]. destruct (h !! a); [|done]. cbn. by rewrite halt_halt.
  - exfalso. apply Hnin'. by right.
  - destruct Hin' as [->|]; [|done]. by destruct (Nat.eq_dec a a).
  - destruct (Nat.eq_dec x a) as [->|]; [|done]. exfalso. apply Hnin'. by left.
Qed.

(** C8: in any registry a Loop can reach, [stop_tickers(id)] clears the
    callback of and stops every live Ticker registered under [id], leaves
    expired ones gone, and leaves every Ticker not registered under [id]
    (in particular every Ticker registered under another caller-id, the
    Loop's own [loop_id] included) and the registry itself unchanged. *)
Theorem stop_tickers_only_id (ops : list loop_op) (id : caller_id_t) :
  let L := run_loop ops in
  let L' := stop_tickers id L in
  (forall a t, registered L id a -> heap L !! a = Some t -> heap L' !! a = Some (halt t)) /\
  (forall a, registered L id a -> heap L !! a = None -> heap L' !! a = None) /\
  (forall a, ~ registered L id a -> heap L' !! a = heap L !! a) /\
  (forall id' a, id' <> id -> registered L id' a -> heap L' !! a = heap L !! a) /\
  tickers L' = tickers L /\
  (forall t, is_running (halt t) = false /\ f_set (halt t) = false).
Proof.
  cbv zeta. pose proof (registry_ok_run ops) as [_ Hd].
  set (L := run_loop ops) in *.
  assert (Hin : forall a, registered L id a -> heap (stop_tickers id L) !! a = halt <$> heap L !! a).
  { intros a (l & E & Ha). unfold stop_tickers. rewrite E. cbn [heap].
    rewrite fold_halt. by destruct (in_dec Nat.eq_dec a l). }
  assert (Hout : forall a, ~ registered L id a -> heap (stop_tickers id L) !! a = heap L !! a).
  { intros a Hn. unfold stop_tickers. destruct (tickers L !! id) as [l|] eqn:E; [|done].
    cbn [heap]. rewrite fold_halt. destruct (in_dec Nat.eq_dec a l) as [Ha|]; [|done].
    exfalso. apply Hn. by exists l. }
  split_and!.
  - intros a t Hr Ht. by rewrite Hin, Ht.
  - intros a Hr Ht. by rewrite Hin, Ht.
  - exact Hout.
  - intros id' a Hne (l' & E' & Ha'). apply Hout. intros (l & E & Ha).
    apply Hne. by apply (Hd id' id l' l a).
  - apply stop_tickers_tickers.
  - intros [[] []]; split; reflexivity.
Qed.

Lemma stop_tickers_only_id_witness :
  heap (stop_tickers 1 (run_loop [CallEvery 0 true true; CallEvery 1 true true])) !! 0%nat =
    Some (mk_Ticker true true) /\
  heap (stop_tickers 1 (run_loop [CallEvery 0 true true; CallEvery 1 true true])) !! 1%nat =
    Some (mk_Ticker false false).
Proof.
  destruct (stop_tickers_only_id [CallEvery 0 true true; CallEvery 1 true true] 1)
    as (H1 & _ & _ & H4 & _).
  split.
  - rewrite (H4 0%N 0%nat); [reflexivity|discriminate|].
    exists [0%nat]. split; [reflexivity|left; reflexivity].
  - rewrite (H1 1%nat (mk_Ticker true true)); [reflexivity| |reflexivity].
    exists [1%nat]. split; [reflexivity|left; reflexivity].
Defined.

End LoopTickers_facts.

(** * Properties of [message] copies *)
Module MessageViews_facts.
Import MessageViews.

(** A view into the source buffer is rebased: same offset, same length,
    same bytes, inside the destination's buffer (buffers below [2^64]). *)
Lemma assign_rebases (new_addr : Z) (m : message) (v : string_view) :
  (0 <= data_addr m)%Z -> (data_addr m + Z.of_nat (length (data m)) < 2 ^ 64)%Z ->
  (0 <= new_addr)%Z -> (new_addr + Z.of_nat (length (data m)) < 2 ^ 64)%Z ->
  in_buffer m v ->
  let v' := fixup_view new_addr (get_sv_pos (data_addr m) v) in
  (sv_data v' - new_addr = sv_data v - data_addr m)%Z /\ sv_size v' = sv_size v /\
  in_buffer (assign new_addr m) v' /\ view_bytes (assign new_addr m) v' = view_bytes m v.
Proof.
  intros H0 H1 H2 H3 (Hlo & Hs & Hhi). cbv zeta.
  unfold fixup_view, get_sv_pos, wrap. cbn [fst snd sv_data sv_size].
  rewrite (Z.mod_small (sv_data v - data_addr m)) by lia.
  rewrite (Z.mod_small (new_addr + (sv_data v - data_addr m))) by lia.
  unfold in_buffer, view_bytes, assign. cbn [data_addr data sv_data sv_size].
  split_and!; try lia.
  by replace (new_addr + (sv_data v - data_addr m) - new_addr)%Z
    with (sv_data v - data_addr m)%Z by lia.
Qed.

(** C9: copying a response whose buffer is at address 4096 into a buffer at
    8192 gives an [ep] view at address 4096, which does not refer into the
    destination's buffer: the never-assigned [{nullptr, 0}] view is
    "rebased" by the distance between the buffers. Its [req_type] and
    [req_body] views, which refer into the buffer, are rebased. *)
Theorem copy_response_ep_outside :
  let m := response 4096 (bytes_of "l1:Ri7e2:hie") 3 1 9 2 in
  let m' := assign 8192 m in
  ep m' = mk_sv 4096 0 /\ ~ in_buffer m' (ep m') /\
  in_buffer m' (req_type m') /\ view_bytes m' (req_type m') = view_bytes m (req_type m) /\
  in_buffer m' (req_body m') /\ view_bytes m' (req_body m') = view_bytes m (req_body m).
Proof.
  cbv zeta. split; [reflexivity|]. split.
  - unfold in_buffer. intros [H _]. vm_compute in H. by apply H.
  - vm_compute. split_and!; try reflexivity; discriminate.
Qed.

End MessageViews_facts.

(** * Properties of caller-id allocation *)
Module NetworkIds_facts.
Import NetworkIds.

Lemma net_ids_nth (n k : nat) (c : Z) :
  (k < n)%nat ->
  net_ids n c !! k = Some (caller_id_wrap (c + Z.of_nat k + 1)).
Proof.
  revert k c. induction n as [|n IH]; intros k c Hk; [lia|].
  cbn [net_ids new_net_id]. destruct k as [|k].
  - cbn. f_equal. f_equal. lia.
  - cbn [lookup list_lookup]. rewrite (IH k) by lia. f_equal.
    unfold caller_id_wrap. rewrite <- Z.add_assoc, Zplus_mod_idemp_l. f_equal. lia.
Qed.

(** C10: the [k]-th construction of a [Network] gets [(k + 1) mod 2^16]:
    the 65536th gets 0, the Loop's own [loop_id], and the 65537th gets the
    id of the first. *)
Theorem net_id_wraps_to_loop_id :
  (forall n k, (k < n)%nat ->
     net_ids n initial_next_net_id !! k = Some (caller_id_wrap (Z.of_nat k + 1))) /\
  net_ids (2 ^ 16) initial_next_net_id !! (2 ^ 16 - 1)%nat = Some loop_id /\
  net_ids (2 ^ 16 + 1) initial_next_net_id !! (2 ^ 16)%nat =
    net_ids (2 ^ 16 + 1) initial_next_net_id !! 0%nat.
Proof.
  assert (H : forall n k, (k < n)%nat ->
     net_ids n initial_next_net_id !! k = Some (caller_id_wrap (Z.of_nat k + 1))).
  { intros n k Hk. rewrite net_ids_nth by done. reflexivity. }
  split; [exact H|]. split.
  - rewrite H by (apply Nat.ltb_lt; vm_compute; reflexivity). vm_compute. reflexivity.
  - rewrite !H by (apply Nat.ltb_lt; vm_compute; reflexivity). vm_compute. reflexivity.
Qed.

Lemma net_id_wraps_to_loop_id_witness :
  net_ids 3 initial_next_net_id !! 2%nat = Some 3%Z.
Proof.
  destruct net_id_wraps_to_loop_id as [H _]. rewrite (H 3%nat 2%nat) by lia. reflexivity.
Defined.

End NetworkIds_facts.

(** * Further properties of the BT request stream *)
Module BTRequestStream_more.
Import BTRequestStream.

Section More.
Variable MAX_REQ_LEN : N.
Variable MAX_REQ_LEN_ENCODED : N.
Variable BPARSER_ERROR_EXCEPTION : N.
Variable message_ok : bytes -> bool.

Local Abbreviation ENC := MAX_REQ_LEN_ENCODED.
Local Abbreviation CODE := BPARSER_ERROR_EXCEPTION.
Local Abbreviation parse_length := (parse_length MAX_REQ_LEN ENC CODE).
Local Abbreviation pi_prefix := (pi_prefix MAX_REQ_LEN ENC CODE).
Local Abbreviation pi_loop := (pi_loop MAX_REQ_LEN ENC CODE message_ok).
Local Abbreviation receive := (receive MAX_REQ_LEN ENC CODE message_ok).
Local Abbreviation feed := (feed MAX_REQ_LEN ENC CODE message_ok).
Local Abbreviation parser_ok := (parser_ok MAX_REQ_LEN).
Local Abbreviation msg_ok := (msg_ok MAX_REQ_LEN).


Lemma parse_length_len (st st2 : parser) (req : bytes) (n : nat) :
  parse_length st req = PLen st2 n ->
  (n = 0 /\ st2 = st) \/
  (n <> 0 /\ st2 = set_current_len st (current_len st2) /\
   (0 < current_len st2)%N /\ (current_len st2 <= MAX_REQ_LEN)%N).
Proof.
  unfold BTRequestStream.parse_length.
  destruct (find_colon req) as [pos|].
  - destruct (from_chars (take pos req)) as [v|]; [|discriminate].
    destruct (v =? 0)%N eqn:E0; [discriminate|].
    destruct (MAX_REQ_LEN <? v)%N eqn:Em; [discriminate|].
    cbn. intros [= <- <-]. right. apply N.eqb_neq in E0. apply N.ltb_ge in Em.
    cbn. split_and!; [done|done|lia|lia].
  - destruct (ENC <=? _)%N; [discriminate|]. intros [= <- <-]. by left.
Qed.

Lemma pi_prefix_ok (st : parser) (req : bytes) (acc : list bytes) :
  parser_ok st ->
  match pi_prefix st req acc with
  | inl (st', _) => (0 < current_len st')%N /\ (current_len st' <= MAX_REQ_LEN)%N /\
                    (N.of_nat (length (buf st')) < current_len st')%N /\
                    closed_with st' = closed_with st
  | inr (POk st' acc') => parser_ok st' /\ acc' = acc /\ closed_with st' = closed_with st
  | inr (PErr _ acc') => acc' = acc
  end.
Proof.
  intros Hok. unfold BTRequestStream.pi_prefix.
  destruct (N.eqb_spec (current_len st) 0) as [Hc|Hc].
  - assert (Hb : buf st = []) by (destruct Hok as [[_ ?]|(? & _)]; [done|lia]).
    destruct (size_buf st) as [|x sb] eqn:Es.
    + destruct (parse_length st req) as [st2 [|k]|st2] eqn:Ep; [| |done].
      * apply parse_length_len in Ep as [[_ ->]|[? _]]; [|done].
        split_and!; [left; cbn; done|done|done].
      * apply parse_length_len in Ep as [[? _]|(_ & E2 & H1 & H2)]; [done|].
        rewrite E2. cbn. rewrite Hb. cbn. split_and!; [lia|lia|lia|done].
    + set (st1 := set_size_buf st _).
      destruct (parse_length st1 (size_buf st1)) as [st2 [|k]|st2] eqn:Ep; [| |done].
      * apply parse_length_len in Ep as [[_ ->]|[? _]]; [|done].
        split_and!; [left; cbn; done|done|done].
      * apply parse_length_len in Ep as [[? _]|(_ & E2 & H1 & H2)]; [done|].
        rewrite E2. cbn. rewrite Hb. cbn. split_and!; [lia|lia|lia|done].
  - destruct Hok as [[? _]|(H1 & H2 & H3)]; [done|]. done.
Qed.

Lemma pi_loop_ok (fuel : nat) (st : parser) (req : bytes) (acc : list bytes) :
  parser_ok st -> Forall msg_ok acc ->
  match pi_loop fuel st req acc with
  | POk st' acc' => parser_ok st' /\ Forall msg_ok acc' /\ closed_with st' = closed_with st
  | PErr _ acc' => Forall msg_ok acc'
  end.
Proof.
  revert st req acc. induction fuel as [|fuel IH]; intros st req acc Hok Hacc; [done|].
  cbn [BTRequestStream.pi_loop]. destruct req as [|x r]; [done|].
  pose proof (pi_prefix_ok st (x :: r) acc Hok) as Hp.
  destruct (pi_prefix st (x :: r) acc) as [[st1 req1]|[st1 acc1|st1 acc1]];
    [|by destruct Hp as (? & -> & ?)|by subst].
  destruct Hp as (H1 & H2 & H3 & Hc1).
  destruct (N.leb_spec (current_len st1) (N.of_nat (length req1 + length (buf st1)))) as [Hle|Hgt].
  - replace (N.of_nat (length (buf st1)) <? current_len st1)%N with true
      by (symmetry; apply N.ltb_lt; lia).
    cbn [buf set_buf current_len set_current_len size_buf closed_with].
    set (need := N.to_nat (current_len st1) - length (buf st1)).
    assert (Hlen : length (buf st1 ++ take need req1) = N.to_nat (current_len st1)).
    { rewrite length_app, length_take. unfold need. lia. }
    destruct (message_ok _); [|exact Hacc].
    specialize (IH (mk_parser 0 (size_buf st1) [] (closed_with st1)) (drop need req1)
                   (acc ++ [buf st1 ++ take need req1]) ltac:(by left)).
    destruct (pi_loop fuel _ _ _) as [st' acc'|st' acc'].
    + destruct IH as (? & ? & Hc); [|split_and!; [done|done|]].
      * apply Forall_app; split; [done|]. constructor; [|constructor].
        unfold msg_ok. rewrite Hlen. lia.
      * rewrite Hc. cbn. done.
    + apply IH. apply Forall_app; split; [done|]. constructor; [|constructor].
      unfold msg_ok. rewrite Hlen. lia.
  - split_and!; [|done|done]. right. cbn. split_and!; [done|done|].
    rewrite length_app. lia.
Qed.

Lemma receive_ok (st : parser) (data : bytes) :
  (closed_with st = None -> parser_ok st) ->
  Forall msg_ok (receive st data).2 /\
  (closed_with (receive st data).1 = None -> parser_ok (receive st data).1).
Proof.
  intros Hok. unfold BTRequestStream.receive, is_closing.
  destruct (closed_with st) as [c|] eqn:Ec; [cbn; rewrite Ec; done|].
  unfold BTRequestStream.process_incoming.
  pose proof (pi_loop_ok (S (length data)) st data [] (Hok eq_refl) ltac:(constructor)) as H.
  destruct (pi_loop _ _ _ _) as [st' acc'|st' acc'].
  - destruct H as (? & ? & Hc). split; [done|]. intros _. done.
  - split; [done|]. cbn. discriminate.
Qed.

Lemma feed_ok (cs : list bytes) (st : parser) :
  (closed_with st = None -> parser_ok st) -> Forall msg_ok (feed st cs).2.
Proof.
  revert st. induction cs as [|c cs IH]; intros st Hok; [constructor|].
  cbn [BTRequestStream.feed]. destruct (receive_ok st c Hok) as [H1 H2].
  destruct (receive st c) as [st1 m1]. specialize (IH st1 H2).
  destruct (feed st1 cs) as [st2 m2]. cbn in *. by apply Forall_app.
Qed.

(** Every message the stream ever hands to [handle_input], whatever bytes
    arrive and however they are split into chunks, is between 1 and
    [MAX_REQ_LEN] bytes long. *)
Theorem feed_message_lengths (cs : list bytes) :
  Forall (fun m => (0 < N.of_nat (length m) <= MAX_REQ_LEN)%N) (feed init_parser cs).2.
Proof. apply feed_ok. intros _. by left. Qed.


Lemma feed_closed (st : parser) (cs : list bytes) :
  is_closing st = true -> feed st cs = (st, []).
Proof.
  intros Hc. induction cs as [|c cs IH]; [done|].
  cbn [BTRequestStream.feed]. unfold BTRequestStream.receive. rewrite Hc. by rewrite IH.
Qed.

(** A length prefix that makes [parse_length] throw at a frame boundary
    closes the stream: nothing in that chunk or in any later chunk is
    delivered. *)
Theorem invalid_prefix_discards_rest (st st' : parser) (data : bytes) (cs : list bytes) :
  closed_with st = None -> current_len st = 0%N -> size_buf st = [] -> data <> [] ->
  parse_length st data = PThrow st' ->
  feed st (data :: cs) = (close st' CODE, []).
Proof.
  intros Hcl Hcur Hsb Hne Hth. cbn [BTRequestStream.feed].
  assert (Hr : receive st data = (close st' CODE, [])).
  { unfold BTRequestStream.receive, is_closing. rewrite Hcl.
    unfold BTRequestStream.process_incoming.
    destruct data as [|x r]; [done|]. cbn [length BTRequestStream.pi_loop].
    unfold BTRequestStream.pi_prefix. rewrite Hcur, Hsb. cbn [N.eqb]. by rewrite Hth. }
  rewrite Hr, feed_closed by reflexivity. done.
Qed.

Lemma find_colon_app (a b : bytes) :
  find_colon (a ++ b) = None <-> find_colon a = None /\ find_colon b = None.
Proof.
  induction a as [|c a IH]; cbn; [tauto|].
  destruct (Ascii.eqb c colon); [split; [discriminate|intros [? _]; discriminate]|].
  destruct (find_colon (a ++ b)) eqn:E1, (find_colon a) eqn:E2; cbn; try tauto;
    destruct IH; intuition discriminate.
Qed.

Lemma find_colon_take (n : nat) (l : bytes) :
  find_colon l = None -> find_colon (take n l) = None.
Proof.
  intros H. rewrite <- (take_drop n l) in H. by apply find_colon_app in H as [H _].
Qed.

(** Bytes of a length prefix with no ':' so far: the stream keeps them in
    [size_buf] while fewer than [MAX_REQ_LEN_ENCODED], and closes once it
    has that many. *)
Lemma header_feed (cs : list bytes) (q : bytes) :
  find_colon (q ++ concat cs) = None ->
  (q = [] \/ (N.of_nat (length q) < ENC)%N) ->
  (feed (mk_parser 0 q [] None) cs).2 = [] /\
  (closed_with (feed (mk_parser 0 q [] None) cs).1 = Some CODE \/
   ((feed (mk_parser 0 q [] None) cs).1 = mk_parser 0 (q ++ concat cs) [] None /\
    (q ++ concat cs = [] \/ (N.of_nat (length (q ++ concat cs)) < ENC)%N))).
Proof.
  revert q. induction cs as [|c cs IH]; intros q Hf Hq.
  { cbn. rewrite app_nil_r. split; [done|]. right. by split. }
  cbn [concat] in Hf. rewrite app_assoc in Hf.
  pose proof (proj1 (proj1 (find_colon_app _ _) Hf)) as Hqc.
  pose proof (proj1 (proj1 (find_colon_app _ _) Hqc)) as Hq0.
  pose proof (proj2 (proj1 (find_colon_app _ _) Hqc)) as Hc0.
  cbn [BTRequestStream.feed concat]. rewrite app_assoc.
  destruct c as [|x c'].
  { rewrite app_nil_r in Hf |- *.
    assert (Hr : receive (mk_parser 0 q [] None) [] = (mk_parser 0 q [] None, [])) by reflexivity.
    rewrite Hr. specialize (IH q Hf Hq). cbn.
    destruct (feed (mk_parser 0 q [] None) cs). exact IH. }
  set (h := match q with [] => x :: c' | _ => q ++ take (N.to_nat ENC) (x :: c') end).
  assert (Hh : find_colon h = None).
  { unfold h. destruct q; [done|]. apply find_colon_app. split; [done|by apply find_colon_take]. }
  assert (Hr : receive (mk_parser 0 q [] None) (x :: c') =
               if (ENC <=? N.of_nat (length h))%N
               then (close (mk_parser 0 (match q with [] => [] | _ => h end) [] None) CODE, [])
               else (mk_parser 0 h [] None, [])).
  { unfold BTRequestStream.receive, is_closing, BTRequestStream.process_incoming.
    cbn [closed_with length BTRequestStream.pi_loop]. unfold BTRequestStream.pi_prefix.
    cbn [current_len size_buf N.eqb]. unfold h.
    destruct q as [|y q']; unfold BTRequestStream.parse_length; cbn [set_size_buf size_buf];
      [rewrite Hc0|rewrite (Hh : find_colon ((y :: q') ++ take (N.to_nat ENC) (x :: c')) = None)];
      destruct (ENC <=? _)%N; reflexivity. }
  rewrite Hr. destruct (N.leb_spec ENC (N.of_nat (length h))) as [Hl|Hl].
  - rewrite feed_closed by reflexivity. cbn. split; [done|by left].
  - assert (Eh : h = q ++ x :: c').
    { unfold h in *. destruct q as [|y q']; [done|]. f_equal. apply take_ge.
      rewrite length_app, length_take in Hl. cbn [length] in Hl |- *. lia. }
    rewrite Eh in Hl |- *.
    destruct (IH (q ++ x :: c') Hf (or_intror Hl)) as [IH1 IH2].
    destruct (feed (mk_parser 0 (q ++ x :: c') [] None) cs) as [st2 m2]. cbn in *.
    split; [done|]. exact IH2.
Qed.

(** A length prefix of at least [MAX_REQ_LEN_ENCODED] bytes with no ':',
    however it is split into chunks, delivers no message and closes the
    stream with the protocol-error code. *)
Theorem long_prefix_closes (p : bytes) (cs : list bytes) :
  find_colon p = None -> (ENC <= N.of_nat (length p))%N -> p <> [] -> concat cs = p ->
  (feed init_parser cs).2 = [] /\ closed_with (feed init_parser cs).1 = Some CODE.
Proof.
  intros Hf Hl Hne Ep. unfold init_parser.
  pose proof (header_feed cs [] ltac:(by rewrite Ep) (or_introl eq_refl)) as [H1 H2].
  split; [exact H1|]. destruct H2 as [H2|[_ H3]]; [exact H2|].
  cbn [app] in H3. rewrite Ep in H3. destruct H3 as [H3|H3]; [done|lia].
Qed.

End More.

Lemma invalid_prefix_discards_rest_witness :
  parse_length 10 3 1 init_parser (bytes_of "x:abc") = PThrow (close init_parser 1) /\
  feed 10 3 1 starts_list init_parser [bytes_of "x:abc"; bytes_of "1:a"] =
    (close (close init_parser 1) 1, []).
Proof.
  split; [reflexivity|].
  apply (invalid_prefix_discards_rest 10 3 1 starts_list init_parser (close init_parser 1));
    [reflexivity|reflexivity|reflexivity|discriminate|reflexivity].
Defined.

Lemma long_prefix_closes_witness :
  find_colon (bytes_of "1234") = None /\
  (feed 10 3 1 starts_list init_parser [bytes_of "12"; bytes_of "34"]).2 = [] /\
  closed_with (feed 10 3 1 starts_list init_parser [bytes_of "12"; bytes_of "34"]).1 = Some 1%N.
Proof.
  split; [reflexivity|].
  apply (long_prefix_closes 10 3 1 starts_list (bytes_of "1234"));
    [reflexivity|vm_compute; discriminate|discriminate|reflexivity].
Defined.

End BTRequestStream_more.


(** * Properties of [loop_time_to_timeval] *)
Module Timeval_facts.
Import Timeval.

(** The [timeval] given to [event_add] splits [t] exactly into seconds and
    microseconds; for a non-negative [t] its [tv_usec] is in [0, 10^6), for
    a negative [t] it is in (-10^6, 0]. *)
Theorem loop_time_to_timeval_split (t : Z) :
  (t = tv_sec (loop_time_to_timeval t) * 1000000 + tv_usec (loop_time_to_timeval t) /\
  (0 <= t -> 0 <= tv_usec (loop_time_to_timeval t) < 1000000) /\
  (t < 0 -> -1000000 < tv_usec (loop_time_to_timeval t) <= 0))%Z.
Proof.
  unfold loop_time_to_timeval. cbn [tv_sec tv_usec]. rewrite Z.quot_1_r.
  split_and!.
  - rewrite (Z.quot_rem' t 1000000) at 1. lia.
  - intros Ht. apply Z.rem_bound_pos; lia.
  - intros Ht. pose proof (Z.rem_bound_abs t 1000000 ltac:(lia)).
    pose proof (Z.rem_nonpos t 1000000 ltac:(lia) ltac:(lia)). lia.
Qed.

End Timeval_facts.

(** * Properties of [Loop::process_job_queue] *)
Module JobQueue_facts.
Import JobQueue.

Lemma run_swapped_app (spawns : nat -> list nat) (sq jq ran : list nat) :
  run_swapped spawns sq jq ran = (ran ++ sq, jq ++ concat (map spawns sq)).
Proof.
  revert jq ran. induction sq as [|j sq IH]; intros jq ran; cbn.
  - by rewrite !app_nil_r.
  - rewrite IH. by rewrite <- !app_assoc.
Qed.

(** One pass of [process_job_queue] runs exactly the jobs queued before it
    started, in FIFO order; the jobs they queue with [call_soon] are not run
    in this pass but left in [job_queue], in the order they were queued. *)
Theorem process_job_queue_defers (spawns : nat -> list nat) (job_queue : list nat) :
  process_job_queue spawns job_queue = (job_queue, concat (map spawns job_queue)).
Proof. unfold process_job_queue. by rewrite run_swapped_app. Qed.

End JobQueue_facts.

(** * Properties of [BTRequestStream::handle_input] *)
Module BTRequestStream_requests_more.
Import BTRequestStream_requests.

Lemma lower_bound_all_below (l : list sent_request) (rid : Z) :
  Forall (fun p => (req_id p < rid)%Z) l -> lower_bound l rid = length l.
Proof.
  induction 1 as [|p l Hp _ IH]; [done|]. cbn.
  apply Z.ltb_lt in Hp. by rewrite Hp, IH.
Qed.

Lemma lower_bound_middle (pre post : list sent_request) (sr : sent_request) (rid : Z) :
  Forall (fun p => (req_id p < rid)%Z) pre -> req_id sr = rid ->
  lower_bound (pre ++ sr :: post) rid = length pre.
Proof.
  intros Hpre Hsr. induction Hpre as [|p l Hp _ IH]; cbn.
  - rewrite Hsr, Z.ltb_irrefl. done.
  - apply Z.ltb_lt in Hp. by rewrite Hp, IH.
Qed.

(** In a deque partitioned around a pending request (ids before it smaller,
    ids after it not smaller, as in the deque sorted by [req_id] that
    [std::lower_bound] requires), a response or error with that request's
    [req_id] completes exactly that request and removes it, keeping the
    others in order. *)
Theorem handle_input_exact_match (pre post : list sent_request) (sr : sent_request)
    (func_map : list string) (msg : message) :
  (msg_req_type msg = "R" \/ msg_req_type msg = "E")%string ->
  Forall (fun p => (req_id p < req_id sr)%Z) pre ->
  Forall (fun p => (req_id sr <= req_id p)%Z) post -> req_id sr = msg_req_id msg ->
  handle_input (pre ++ sr :: post) func_map msg = (Completed sr, pre ++ post).
Proof.
  intros Ht Hpre _ Hid. unfold handle_input.
  assert (Hre : (String.eqb (msg_req_type msg) "R" || String.eqb (msg_req_type msg) "E")%bool = true).
  { destruct Ht as [-> | ->]; reflexivity. }
  rewrite Hre. rewrite (lower_bound_middle pre post sr (msg_req_id msg)) by (by rewrite <- Hid).
  rewrite list_lookup_middle by done. by rewrite delete_middle.
Qed.

(** A response or error whose [req_id] is above every pending request's
    matches none: the deque is unchanged and the message goes to the
    handler registered for its endpoint, if any. *)
Theorem handle_input_response_past_end (sent_reqs : list sent_request)
    (func_map : list string) (msg : message) :
  Forall (fun p => (req_id p < msg_req_id msg)%Z) sent_reqs ->
  handle_input sent_reqs func_map msg =
    (if existsb (String.eqb (msg_endpoint msg)) func_map
     then Dispatched (msg_endpoint msg) else Ignored, sent_reqs).
Proof.
  intros Hall. unfold handle_input.
  rewrite (lower_bound_all_below sent_reqs (msg_req_id msg) Hall).
  rewrite (lookup_ge_None_2 sent_reqs (length sent_reqs)) by lia.
  destruct (_ || _)%bool; destruct (existsb _ _); reflexivity.
Qed.

Lemma handle_input_exact_match_witness :
  handle_input [mk_sent_request 2 0; mk_sent_request 5 1; mk_sent_request 7 2] ["ping"%string]
    (mk_message "R" 5 "") = (Completed (mk_sent_request 5 1),
                             [mk_sent_request 2 0; mk_sent_request 7 2]).
Proof.
  apply (handle_input_exact_match [mk_sent_request 2 0] [mk_sent_request 7 2]).
  - by left.
  - repeat constructor.
  - repeat constructor. cbn. lia.
  - reflexivity.
Defined.

Lemma handle_input_response_past_end_witness :
  handle_input [mk_sent_request 2 0; mk_sent_request 5 1] ["ping"%string]
    (mk_message "E" 9 "ping") = (Dispatched "ping", [mk_sent_request 2 0; mk_sent_request 5 1]).
Proof.
  rewrite (handle_input_response_past_end [mk_sent_request 2 0; mk_sent_request 5 1]
             ["ping"%string] (mk_message "E" 9 "ping")) by (repeat constructor).
  reflexivity.
Defined.

End BTRequestStream_requests_more.

(** * Properties of [call_later] *)
Module CallLater_more.
Import CallLater.

(** Off the loop thread, with a clock that does not go backwards and a
    non-negative delay, the queued job either runs the callback at once or
    schedules a one-shot whose delay is between 0 and the original delay. *)
Theorem call_later_job_bounded (period now now' delay target : Z) :
  (0 < period)%Z -> (0 <= delay)%Z -> (now <= now')%Z ->
  call_later period false now delay = Job target ->
  run_job period target now' = RunNow \/
  exists d, run_job period target now' = Oneshot d /\ (0 <= d <= delay)%Z.
Proof.
  intros Hp Hd Hn. unfold call_later. intros [= <-]. unfold run_job.
  destruct (Z.leb_spec (now + delay * period) now') as [Hle|Hlt]; [by left|].
  right. eexists; split; [reflexivity|].
  rewrite Z.quot_div_nonneg by lia. split.
  - apply Z.div_pos; lia.
  - apply Z.div_le_upper_bound; nia.
Qed.

Lemma call_later_job_bounded_witness :
  call_later 1000 false 5000 2000 = Job 2005000 /\
  run_job 1000 2005000 6000 = Oneshot 1999 /\ (0 <= 1999 <= 2000)%Z.
Proof.
  split; [reflexivity|].
  destruct (call_later_job_bounded 1000 5000 6000 2000 2005000
              ltac:(lia) ltac:(lia) ltac:(lia) eq_refl) as [H|[d [H Hd]]].
  - discriminate H.
  - rewrite H. injection H as <-. split; [reflexivity|lia].
Defined.

End CallLater_more.

(** * Properties of the [net_id] counter *)
Module NetworkIds_more.
Import NetworkIds.

Lemma length_net_ids (n : nat) (c : Z) : length (net_ids n c) = n.
Proof. revert c. induction n as [|n IH]; intros c; [done|]. cbn. by rewrite IH. Qed.

(** Any 2^16 consecutive [Network] constructions, from any counter value,
    get pairwise distinct [net_id]s. *)
Theorem net_ids_distinct (n : nat) (c : Z) :
  (Z.of_nat n <= 65536)%Z -> NoDup (net_ids n c).
Proof.
  intros Hn. apply NoDup_alt. intros i j x Hi Hj.
  pose proof (lookup_lt_Some _ _ _ Hi) as Hi'. pose proof (lookup_lt_Some _ _ _ Hj) as Hj'.
  rewrite length_net_ids in Hi', Hj'.
  rewrite NetworkIds_facts.net_ids_nth in Hi, Hj by done. rewrite <- Hj in Hi. injection Hi as Hij.
  unfold caller_id_wrap in Hij.
  pose proof (Z.div_mod (c + Z.of_nat i + 1) (2 ^ 16) ltac:(lia)) as E1.
  pose proof (Z.div_mod (c + Z.of_nat j + 1) (2 ^ 16) ltac:(lia)) as E2.
  rewrite Hij in E1. change (2 ^ 16)%Z with 65536%Z in *.
  assert (Hq : ((c + Z.of_nat i + 1) / 65536 = (c + Z.of_nat j + 1) / 65536)%Z) by lia.
  lia.
Qed.

(** The first 2^16 - 1 [Network]s of a process all get a [net_id] other
    than the Loop's reserved [loop_id] 0. *)
Theorem net_ids_not_loop_id (n : nat) :
  (Z.of_nat n <= 65535)%Z -> ~ In loop_id (net_ids n initial_next_net_id).
Proof.
  intros Hn Hin. apply list_elem_of_In, list_elem_of_lookup in Hin as [k Hk].
  pose proof (lookup_lt_Some _ _ _ Hk) as Hk'. rewrite length_net_ids in Hk'.
  rewrite NetworkIds_facts.net_ids_nth in Hk by done. injection Hk as Hk.
  unfold caller_id_wrap, initial_next_net_id, loop_id in Hk.
  change (2 ^ 16)%Z with 65536%Z in Hk. rewrite Z.mod_small in Hk by lia. lia.
Qed.

Lemma net_ids_distinct_witness : NoDup (net_ids 3 65534).
Proof. apply net_ids_distinct. lia. Defined.

Lemma net_ids_not_loop_id_witness : ~ In loop_id (net_ids 4 initial_next_net_id).
Proof. apply net_ids_not_loop_id. lia. Defined.

End NetworkIds_more.

(** * Properties of [Loop::make_handler] *)
Module LoopTickers_more.
Import TickerModel LoopTickers.

Lemma heap_ok_empty : heap_ok empty_Loop.
Proof. intros a. cbn. rewrite lookup_empty. by intros []. Qed.

Lemma heap_ok_update (a : nat) (g : Ticker -> Ticker) (L : Loop) :
  heap_ok L -> heap_ok (update_ticker a g L).
Proof.
  unfold update_ticker. destruct (heap L !! a) as [t|] eqn:E; [|done].
  intros HL b. cbn. destruct (decide (b = a)) as [->|Hne].
  - intros _. apply HL. by rewrite E.
  - rewrite lookup_insert_ne by done. apply HL.
Qed.

Lemma heap_ok_make_handler (id : caller_id_t) (L : Loop) :
  heap_ok L -> heap_ok (make_handler id L).2.
Proof.
  intros HL b. cbn. destruct (decide (b = next_ticker L)) as [->|Hne]; [lia|].
  rewrite lookup_insert_ne by done. intros Hb. specialize (HL b Hb). lia.
Qed.

Lemma heap_ok_step (L : Loop) (o : loop_op) : heap_ok L -> heap_ok (loop_step L o).
Proof.
  intros HL. destruct o as [id si ok|a|a ok|a ok|id]; cbn [loop_step].
  - pose proof (heap_ok_make_handler id L HL) as H.
    destruct (make_handler id L) as [a L1]. by apply heap_ok_update.
  - intros b. cbn. destruct (decide (b = a)) as [->|Hne].
    + rewrite lookup_delete_eq. by intros [].
    + rewrite lookup_delete_ne by done. apply HL.
  - by apply heap_ok_update.
  - by apply heap_ok_update.
  - unfold stop_tickers. destruct (tickers L !! id) as [l|]; [|done].
    intros b. cbn. rewrite LoopTickers_facts.fold_halt.
    destruct (in_dec _ b l); [rewrite fmap_is_Some|]; apply HL.
Qed.

Lemma heap_ok_run (ops : list loop_op) : heap_ok (run_loop ops).
Proof.
  unfold run_loop. generalize heap_ok_empty. generalize empty_Loop.
  induction ops as [|o ops IH]; intros L HL; [done|]. cbn. apply IH.
  by apply heap_ok_step.
Qed.

(** In any Loop reachable through its operations, [make_handler(id)]
    allocates a Ticker at a fresh place, stopped and with no callback, and
    changes no other Ticker. The new Ticker goes last in [tickers[id]],
    after the live entries of the old list in their order. Every caller-id's
    list is purged of expired entries, so afterwards each registered entry
    is a live Ticker. *)
Theorem make_handler_fresh (ops : list loop_op) (id : caller_id_t) :
  let L := run_loop ops in
  let a := (make_handler id L).1 in
  let L' := (make_handler id L).2 in
  heap L !! a = None /\
  heap L' !! a = Some (new_Ticker false) /\
  (forall b, b <> a -> heap L' !! b = heap L !! b) /\
  tickers L' !! id =
    Some (List.filter (fun b => negb (expired L b)) (default [] (tickers L !! id)) ++ [a]) /\
  (forall id', id' <> id ->
     tickers L' !! id' = List.filter (fun b => negb (expired L b)) <$> tickers L !! id') /\
  (forall id' l b, tickers L' !! id' = Some l -> In b l -> is_Some (heap L' !! b)).
Proof.
  cbv zeta. pose proof (heap_ok_run ops) as Hok. set (L := run_loop ops) in *.
  cbn [make_handler clear_old_tickers fst snd heap tickers next_ticker].
  split_and!.
  - destruct (heap L !! next_ticker L) eqn:E; [|done].
    specialize (Hok (next_ticker L) ltac:(by rewrite E)). lia.
  - by rewrite lookup_insert_eq.
  - intros b Hb. by rewrite lookup_insert_ne.
  - rewrite lookup_insert_eq, lookup_fmap. by destruct (tickers L !! id).
  - intros id' Hne. rewrite lookup_insert_ne by done. by rewrite lookup_fmap.
  - intros id' l b. destruct (decide (b = next_ticker L)) as [->|Hb].
    { intros _ _. rewrite lookup_insert_eq. by eexists. }
    rewrite (lookup_insert_ne _ _ b) by done.
    assert (Hlive : forall l0, In b (List.filter (fun b => negb (expired L b)) l0) ->
                    is_Some (heap L !! b)).
    { intros l0 Hin. apply filter_In in Hin as [_ Hin]. unfold expired in Hin.
      destruct (heap L !! b); [by eexists|discriminate]. }
    destruct (decide (id' = id)) as [->|Hne].
    + rewrite lookup_insert_eq. intros [= <-] Hin.
      apply in_app_or in Hin as [Hin|[Hin|[]]]; [|done].
      rewrite lookup_fmap in Hin. destruct (tickers L !! id) as [l0|]; cbn in Hin; [|done].
      by apply (Hlive l0).
    + rewrite lookup_insert_ne, lookup_fmap by done.
      destruct (tickers L !! id') as [l0|]; [|discriminate]. intros [= <-]. apply Hlive.
Qed.

End LoopTickers_more.

(** * Properties of [message] copies *)
Module MessageViews_more.
Import MessageViews.

Lemma assign_rebases_witness :
  let m := response 4096 (bytes_of "l1:Ri7e2:hie") 3 1 9 2 in
  let v' := fixup_view 8192 (get_sv_pos (data_addr m) (req_body m)) in
  (sv_data v' - 8192 = sv_data (req_body m) - data_addr m)%Z /\ sv_size v' = sv_size (req_body m) /\
  in_buffer (assign 8192 m) v' /\ view_bytes (assign 8192 m) v' = bytes_of "hi".
Proof.
  cbv zeta.
  pose proof (MessageViews_facts.assign_rebases 8192 (response 4096 (bytes_of "l1:Ri7e2:hie") 3 1 9 2)
                (req_body (response 4096 (bytes_of "l1:Ri7e2:hie") 3 1 9 2))
                ltac:(cbn; lia) ltac:(cbn; lia) ltac:(cbn; lia) ltac:(cbn; lia)
                ltac:(unfold in_buffer; cbn; lia)) as (H1 & H2 & H3 & H4).
  split_and!; [exact H1|exact H2|exact H3|]. rewrite H4. reflexivity.
Defined.

End MessageViews_more.
